(** * serving_utils.client: round-robin pool, reconciliation and retry loop

    A shallow embedding of [serving_utils/client.py].  The Python methods
    mutate [self] and talk to the outside world (name resolution, gRPC
    channels and calls, the logger); they are written here in a state and
    exception monad over a [State] made of the client object and a [World]
    that records every outside interaction.  The answers of the outside
    world come from an [Env] of oracles, so that every theorem holds for
    every resolver and every backend.

    One call runs at a time: what other coroutines do to the same client
    while [async_predict] awaits the backend is outside the model, and so
    are the event loop, the tensor encoding ([tf.make_tensor_proto],
    [tf.make_ndarray], whose two sides are one opaque [Value] here) and
    [RetryFailed.__str__]. *)

From stdpp Require Import base gmap sets list strings pretty.
From Stdlib Require Import ZArith.

Local Open Scope string_scope.

(** ** Plain data *)

Definition Address := string.

(** Identity of a transport handle (a channel object). *)
Definition Handle := nat.

(** [PredictInput = namedtuple('PredictInput', ['name', 'value'])].  Values
    and tensors are opaque payloads. *)
Definition Value := string.
Record PredictInput := { pi_name : string; pi_value : Value }.

(** [data: Union[ORIGINAL_DATA_TYPE, NEW_DATA_TYPE]]: a list of
    [PredictInput] or a mapping from names to values (iterated in order). *)
Inductive Data :=
| OriginalData (l : list PredictInput)
| NewData (l : list (string * Value)).

Record PredictRequest := {
  model_spec_name : string;
  model_spec_signature_name : option string;
  inputs : gmap string Value;
  output_filter : list string
}.

Record PredictResponse := { outputs : list (string * Value) }.

(** gRPC status codes ([grpc.StatusCode] and [grpclib.const.Status]). *)
Inductive StatusCode :=
| OK | CANCELLED | UNKNOWN | INVALID_ARGUMENT | DEADLINE_EXCEEDED | NOT_FOUND
| ALREADY_EXISTS | PERMISSION_DENIED | RESOURCE_EXHAUSTED | FAILED_PRECONDITION
| ABORTED | OUT_OF_RANGE | UNIMPLEMENTED | INTERNAL | UNAVAILABLE | DATA_LOSS
| UNAUTHENTICATED.

#[global] Instance StatusCode_eq_dec : EqDecision StatusCode.
Proof. solve_decision. Defined.

(** The exceptions the client sees.  [RpcError] is [grpc.RpcError] with its
    [code()] and [details()]; [GRPCError] is [grpclib]'s, whose [message] is
    optional (the tests build [GRPCError(Status.UNAVAILABLE)] with none).
    [PreconditionError] is raised by the pool when a present address is
    inserted again, [OSError] by a failed name resolution
    ([socket.gaierror]); [OtherException] is any other subclass of
    [Exception]. *)
#[warnings="-register-all"] Inductive Exn :=
| EmptyPool (msg : string)
| RetryFailed (msg : string) (errors : list Exn)
| RpcError (code : StatusCode) (details : string)
| GRPCError (status : StatusCode) (message : option string)
| CancelledError
| TypeError (msg : string)
| PreconditionError (key : string)
| OSError (msg : string)
| OtherException (name : string).

(** ** Connection *)

(** The two channel flavours: [grpc.insecure_channel] / [grpc.secure_channel]
    for blocking calls and [grpclib.client.Channel] for awaitable calls. *)
Inductive Channel :=
| InsecureChannel (h : Handle) (target : string) (options : list (string * string))
| SecureChannel (h : Handle) (target : string) (credentials : string)
                (options : list (string * string))
| AsyncChannel (h : Handle) (addr : Address) (port : Z).

Definition channel_handle (c : Channel) : Handle :=
  match c with
  | InsecureChannel h _ _ | SecureChannel h _ _ _ | AsyncChannel h _ _ => h
  end.

(** A [PredictionServiceStub] built on a channel. *)
Record Stub := { stub_channel : Channel }.

Record Connection := {
  addr : Address;
  port : Z;
  sync_channel : Channel;
  async_channel : Channel;
  sync_stub : Stub;
  async_stub : Stub
}.

(** ** RoundRobinMap *)

(** Modelled from the spec: [round_robin_map.RoundRobinMap] is imported by
    [client.py] but its file is not part of the sources.  The spec
    describes it as an ordered sequence of (address, connection) pairs in
    insertion order with a rotation cursor that persists across calls and is
    stored as an index modulo the current length. *)
Record RoundRobinMap := {
  rr_entries : list (Address * Connection);
  rr_cursor : nat
}.

(** Modelled from the spec: the pool of a new client, [RoundRobinMap()]. *)
Definition rr_empty : RoundRobinMap := {| rr_entries := []; rr_cursor := 0 |}.

(** An index modulo the current length (0 when there is nothing left). *)
Definition wrap (c n : nat) : nat :=
  match n with O => O | _ => (c mod n)%nat end.

(** Modelled from the spec: [addresses()], used as [self._pool.keys()]. *)
Definition rr_keys (p : RoundRobinMap) : list Address := (rr_entries p).*1.

(** Modelled from the spec: position of an address in the sequence. *)
Definition rr_index (a : Address) (p : RoundRobinMap) : option nat :=
  fst <$> list_find (λ e, e.1 = a) (rr_entries p).

(** Modelled from the spec: [select_next()], used as [next(iter(self._pool))]:
    the entry under the cursor, the cursor advanced past it; [None] stands
    for [StopIteration] on an empty pool. *)
Definition rr_next (p : RoundRobinMap)
  : option (Address * Connection * RoundRobinMap) :=
  let n := length (rr_entries p) in
  let i := wrap (rr_cursor p) n in
  match rr_entries p !! i with
  | None => None
  | Some e => Some (e, {| rr_entries := rr_entries p; rr_cursor := wrap (S i) n |})
  end.

(** Modelled from the spec: [remove(address)], used as
    [del self._pool[address]]: no-op when absent; an entry removed before
    the cursor moves the cursor back by one. *)
Definition rr_remove (a : Address) (p : RoundRobinMap) : RoundRobinMap :=
  match rr_index a p with
  | None => p
  | Some i =>
      let es := delete i (rr_entries p) in
      let c := if decide (i < rr_cursor p)%nat
               then (rr_cursor p - 1)%nat else rr_cursor p in
      {| rr_entries := es; rr_cursor := wrap c (length es) |}
  end.

(** Modelled from the spec: [upsert(address, connection)], used as
    [self._pool[address] = connection]: appended when absent, a precondition
    error when the address is already present. *)
Definition rr_upsert (a : Address) (c : Connection) (p : RoundRobinMap)
  : Exn + RoundRobinMap :=
  match rr_index a p with
  | Some _ => inl (PreconditionError a)
  | None => inr {| rr_entries := rr_entries p ++ [(a, c)]; rr_cursor := rr_cursor p |}
  end.

(** The entries returned by [k] consecutive selections, in order, and the
    pool they leave behind. *)
Fixpoint rr_visit (k : nat) (p : RoundRobinMap) : list (Address * Connection) :=
  match k with
  | O => []
  | S k =>
      match rr_next p with
      | None => []
      | Some (e, p') => e :: rr_visit k p'
      end
  end.

Fixpoint rr_after (k : nat) (p : RoundRobinMap) : RoundRobinMap :=
  match k with
  | O => p
  | S k =>
      match rr_next p with
      | None => p
      | Some (_, p') => rr_after k p'
      end
  end.

(** Modelled from the spec: the invariant of the pool; keys are unique and
    the cursor is an index into the sequence. *)
Definition rr_wf (p : RoundRobinMap) : Prop :=
  NoDup (rr_keys p) ∧ rr_cursor p = wrap (rr_cursor p) (length (rr_entries p)).

(** ** The client object, the world and the environment *)

Record Client := {
  _pem : option string;
  _channel_options : list (string * string);
  _host : string;
  _port : Z;
  _pool : RoundRobinMap;
  n_trys : Z
}.

Inductive LogRecord :=
| LogWarning (msg : string)
| LogException (e : Exn).

(** Calls that leave the process. *)
Inductive Call :=
| CallResolve (host : string)
| CallPredict (s : Stub) (r : PredictRequest)
| CallAsyncPredict (s : Stub) (r : PredictRequest)
| CallListModels (c : Channel).

(** What the outside has seen so far: the calls made (oldest first), the
    transport handles that were opened and not closed, and the log. *)
Record World := {
  calls : list Call;
  next_handle : Handle;
  live_handles : gset Handle;
  log : list LogRecord
}.

Definition tick (w : World) : nat := length (calls w).

(** The environment answers each outside call; its answer may depend on
    how many calls came before, so that any run of a resolver and a backend
    that change over time is the run of some environment.  [set_iter] is the order in which Python
    iterates over a set: unspecified, but every element exactly once.
    [cancelled_is_Exception] tells whether [asyncio.CancelledError] derives
    from [Exception] (before Python 3.8) or only from [BaseException]. *)
Record Env := {
  gethostbyname_ex : nat → string → Exn + (string * list string * list Address);
  sync_Predict : nat → Stub → PredictRequest → Exn + PredictResponse;
  async_Predict : nat → Stub → PredictRequest → Exn + PredictResponse;
  ListModels : nat → Channel → Exn + list string;
  set_iter : gset Address → list Address;
  set_iter_perm : ∀ X, set_iter X ≡ₚ elements X;
  cancelled_is_Exception : bool
}.

Record State := { self : Client; world : World }.

(** ** State and exception monad *)

Inductive Result (A : Type) :=
| Return (a : A)
| Raise (e : Exn).
Arguments Return {A} a.
Arguments Raise {A} e.

Definition M (A : Type) : Type := State → Result A * State.

#[global] Instance M_ret : MRet M := λ A a st, (Return a, st).
#[global] Instance M_bind : MBind M := λ A B f m st,
  match m st with
  | (Return a, st') => f a st'
  | (Raise e, st') => (Raise e, st')
  end.

Definition raise {A} (e : Exn) : M A := λ st, (Raise e, st).
Definition gets {A} (f : State → A) : M A := λ st, (Return (f st), st).
Definition modify (f : State → State) : M unit := λ st, (Return tt, f st).

(** [try: m except e: on_err e else: on_ok a]; what the handler or the
    [else] branch raises is not caught again. *)
Definition try_except_else {A B} (m : M A) (on_err : Exn → M B) (on_ok : A → M B)
  : M B := λ st,
  match m st with
  | (Return a, st') => on_ok a st'
  | (Raise e, st') => on_err e st'
  end.

(** [for x in l: f x] *)
Fixpoint for_each {A} (l : list A) (f : A → M unit) : M unit :=
  match l with
  | [] => mret tt
  | x :: l' => f x ;; for_each l' f
  end.

Definition with_pool (p : RoundRobinMap) (st : State) : State :=
  {| self := {| _pem := _pem (self st);
                _channel_options := _channel_options (self st);
                _host := _host (self st);
                _port := _port (self st);
                _pool := p;
                n_trys := n_trys (self st) |};
     world := world st |}.

Definition set_pool (p : RoundRobinMap) : M unit := modify (with_pool p).

Definition set_world (w : World) : M unit :=
  modify (λ st, {| self := self st; world := w |}).

Definition record_call (c : Call) : M unit :=
  w ← gets world;
  set_world {| calls := calls w ++ [c]; next_handle := next_handle w;
               live_handles := live_handles w; log := log w |}.

Definition emit_log (r : LogRecord) : M unit :=
  w ← gets world;
  set_world {| calls := calls w; next_handle := next_handle w;
               live_handles := live_handles w; log := log w ++ [r] |}.

(** The state after one more outside call, and after one more log record. *)
Definition with_call (c : Call) (st : State) : State :=
  {| self := self st;
     world := {| calls := calls (world st) ++ [c];
                 next_handle := next_handle (world st);
                 live_handles := live_handles (world st);
                 log := log (world st) |} |}.

Definition with_log (r : LogRecord) (st : State) : State :=
  {| self := self st;
     world := {| calls := calls (world st);
                 next_handle := next_handle (world st);
                 live_handles := live_handles (world st);
                 log := log (world st) ++ [r] |} |}.

(** Two clients that differ at most in their pool. *)
Definition same_config (c c' : Client) : Prop :=
  _pem c = _pem c' ∧ _channel_options c = _channel_options c' ∧
  _host c = _host c' ∧ _port c = _port c' ∧ n_trys c = n_trys c'.

(** A new transport handle, live from now on. *)
Definition open_handle : M Handle :=
  w ← gets world;
  let h := next_handle w in
  set_world {| calls := calls w; next_handle := S h;
               live_handles := {[h]} ∪ live_handles w; log := log w |};;
  mret h.

Definition lift_answer {A} (r : Exn + A) : M A :=
  match r with inl e => raise e | inr a => mret a end.

(** ["Model" in s] *)
Fixpoint str_contains (needle hay : string) : bool :=
  String.prefix needle hay ||
  match hay with
  | EmptyString => false
  | String _ hay' => str_contains needle hay'
  end.

(** ** The methods of [Connection] and [Client] *)

Section Client.
Context (env : Env).

(** [Connection.__init__(addr, port, pem, channel_options, loop)]: both
    channels are opened, then both stubs are built on them.  Channels
    connect lazily, so construction does not fail. *)
Definition Connection_init (addr : Address) (port : Z) (pem : option string)
    (channel_options : option (list (string * string))) : M Connection :=
  let channel_options := default [] channel_options in
  let make_sync_channel target h :=
    match pem with
    | None => InsecureChannel h target channel_options
    | Some creds => SecureChannel h target creds channel_options
    end in
  hs ← open_handle;
  let sync_channel := make_sync_channel (addr +:+ ":" +:+ pretty port) hs in
  ha ← open_handle;
  let async_channel := AsyncChannel ha addr port in
  mret {| addr := addr; port := port;
          sync_channel := sync_channel; async_channel := async_channel;
          sync_stub := {| stub_channel := sync_channel |};
          async_stub := {| stub_channel := async_channel |} |}.

(** [socket.gethostbyname_ex(host)] *)
Definition socket_gethostbyname_ex (host : string)
  : M (string * list string * list Address) :=
  t ← gets (tick ∘ world);
  record_call (CallResolve host);;
  lift_answer (gethostbyname_ex env t host).

(** [del self._pool[address]] *)
Definition pool_delitem (address : Address) : M unit :=
  p ← gets (_pool ∘ self);
  set_pool (rr_remove address p).

(** [self._pool[address] = conn] *)
Definition pool_setitem (address : Address) (conn : Connection) : M unit :=
  p ← gets (_pool ∘ self);
  p' ← lift_answer (rr_upsert address conn p);
  set_pool p'.

(** [self._pool[address] = Connection(address, self._port, self._pem,
    self._channel_options, self._loop)], the body of the second loop of
    [_setup_connections]. *)
Definition connect (address : Address) : M unit :=
  c ← gets self;
  conn ← Connection_init address (_port c) (_pem c) (Some (_channel_options c));
  pool_setitem address conn.

(** [Client._setup_connections] *)
Definition _setup_connections : M unit :=
  host ← gets (_host ∘ self);
  '(_, _, current_addrs) ← socket_gethostbyname_ex host;
  let current_addrs : gset Address := list_to_set current_addrs in
  p ← gets (_pool ∘ self);
  let original_addrs : gset Address := list_to_set (rr_keys p) in
  if decide (original_addrs = current_addrs) then mret tt
  else
    let missing := original_addrs ∖ current_addrs in
    for_each (set_iter env missing) pool_delitem;;
    let new_addrs := current_addrs ∖ original_addrs in
    for_each (set_iter env new_addrs) connect.

(** [Client.__init__]: the pool starts empty and is filled by a first
    reconciliation; a failing resolver makes the constructor fail. *)
Definition Client_init (host : string) (port : Z) (n_trys : option Z)
    (pem : option string) (channel_options : option (list (string * string)))
    (w : World) : Result Client * World :=
  let c := {| _pem := pem;
              _channel_options := default [] channel_options;
              _host := host; _port := port;
              _pool := rr_empty; n_trys := default 3%Z n_trys |} in
  match _setup_connections {| self := c; world := w |} with
  | (Return _, st) => (Return (self st), world st)
  | (Raise e, st) => (Raise e, world st)
  end.

(** [copy_message(src, dst)]: [dst] parses the serialisation of [src] and is
    returned. *)
Definition copy_message (src dst : Value) : Value := src.

(** [Client._predict_request]; [req.inputs[name]] is the entry of the map,
    made empty when it is not there yet. *)
Definition _predict_request (data : Data) (model_name : string)
    (output_names : option (list string))
    (model_signature_name : option string) : PredictRequest :=
  let named :=
    match data with
    | OriginalData l => (λ d, (pi_name d, pi_value d)) <$> l
    | NewData l => l
    end in
  {| model_spec_name := model_name;
     model_spec_signature_name := model_signature_name;
     inputs := foldl (λ m d, <[d.1 := copy_message d.2 (default "" (m !! d.1))]> m)
                     ∅ named;
     output_filter := default [] output_names |}.

(** [Client.parse_predict_response] *)
Definition parse_predict_response (response : PredictResponse)
  : gmap string Value :=
  foldl (λ results kv, <[kv.1 := kv.2]> results) ∅ (outputs response).

(** [next(iter(self._pool))]; [None] is [StopIteration]. *)
Definition pool_next : M (option (Address * Connection)) :=
  p ← gets (_pool ∘ self);
  match rr_next p with
  | None => mret None
  | Some (e, p') => set_pool p';; mret (Some e)
  end.

(** [Client.list_models] *)
Definition list_models : M (list string) :=
  o ← pool_next;
  match o with
  | None => raise (EmptyPool "no connections")
  | Some (_, conn) =>
      t ← gets (tick ∘ world);
      record_call (CallListModels (sync_channel conn));;
      lift_answer (ListModels env t (sync_channel conn))
  end.

(** [Client.get_round_robin_stub] *)
Definition get_round_robin_stub (is_async_stub : bool) : M Stub :=
  o ← pool_next;
  match o with
  | None => raise (EmptyPool "no connections")
  | Some (_, conn) =>
      if is_async_stub then mret (async_stub conn) else mret (sync_stub conn)
  end.

(** [k] consecutive calls of [get_round_robin_stub], results in order. *)
Fixpoint get_round_robin_stubs (is_async_stub : bool) (k : nat) : M (list Stub) :=
  match k with
  | O => mret []
  | S k =>
      stub ← get_round_robin_stub is_async_stub;
      stubs ← get_round_robin_stubs is_async_stub k;
      mret (stub :: stubs)
  end.

(** [stub.Predict(request)] on the blocking stub *)
Definition Predict (stub : Stub) (request : PredictRequest) : M PredictResponse :=
  t ← gets (tick ∘ world);
  record_call (CallPredict stub request);;
  lift_answer (sync_Predict env t stub request).

(** [await stub.Predict(request)] on the awaitable stub; a cancellation of
    the pending call is raised here as [CancelledError]. *)
Definition await_Predict (stub : Stub) (request : PredictRequest)
  : M PredictResponse :=
  t ← gets (tick ∘ world);
  record_call (CallAsyncPredict stub request);;
  lift_answer (async_Predict env t stub request).

(** [isinstance(e, Exception)] *)
Definition is_Exception (e : Exn) : bool :=
  match e with
  | CancelledError => cancelled_is_Exception env
  | _ => true
  end.

Definition logger_warning (msg : string) : M unit := emit_log (LogWarning msg).
Definition logger_exception (e : Exn) : M unit := emit_log (LogException e).

(** [raise RetryFailed(f"Failed after {self.n_trys} tries", errors=errors)] *)
Definition raise_RetryFailed {A} (errors : list Exn) : M A :=
  n ← gets (n_trys ∘ self);
  raise (RetryFailed ("Failed after " +:+ pretty n +:+ " tries") errors).

(** The body of the [try] of [Client.predict]:
    [stub = self.get_round_robin_stub(is_async_stub=False)] and
    [response = stub.Predict(request)]. *)
Definition attempt (request : PredictRequest) : M PredictResponse :=
  stub ← get_round_robin_stub false;
  Predict stub request.

(** The [for _ in range(self.n_trys): ... else: raise RetryFailed] loop of
    [Client.predict], with [remaining] iterations left. *)
Fixpoint predict_loop (request : PredictRequest) (remaining : nat)
    (errors : list Exn) : M PredictResponse :=
  match remaining with
  | O => raise_RetryFailed errors
  | S remaining =>
      try_except_else (attempt request)
        (λ e,
           match e with
           | EmptyPool _ =>
               logger_warning "serving_utils.Client -- empty pool";;
               _setup_connections;;
               predict_loop request remaining (errors ++ [e])
           | RpcError code details =>
               if bool_decide (code = NOT_FOUND) && str_contains "Model" details
               then raise e
               else
                 logger_exception e;;
                 _setup_connections;;
                 predict_loop request remaining (errors ++ [e])
           | _ =>
               if is_Exception e then
                 logger_exception e;;
                 _setup_connections;;
                 predict_loop request remaining (errors ++ [e])
               else raise e
           end)
        (λ response, mret response)
  end.

(** [Client.predict] *)
Definition predict (data : Data) (output_names : option (list string))
    (model_name : string) (model_signature_name : option string)
  : M (gmap string Value) :=
  _setup_connections;;
  let request :=
    _predict_request data model_name output_names model_signature_name in
  n ← gets (n_trys ∘ self);
  response ← predict_loop request (Z.to_nat n) [];
  mret (parse_predict_response response).

(** ["Model" in e.message]: a [TypeError] when there is no message. *)
Definition Model_in_message (message : option string) : Exn + bool :=
  match message with
  | None => inl (TypeError "argument of type 'NoneType' is not iterable")
  | Some m => inr (str_contains "Model" m)
  end.

(** The body of the [try] of [Client.async_predict]. *)
Definition async_attempt (request : PredictRequest) : M PredictResponse :=
  stub ← get_round_robin_stub true;
  await_Predict stub request.

(** The retry loop of [Client.async_predict]. *)
Fixpoint async_predict_loop (request : PredictRequest) (remaining : nat)
    (errors : list Exn) : M PredictResponse :=
  match remaining with
  | O => raise_RetryFailed errors
  | S remaining =>
      try_except_else (async_attempt request)
        (λ e,
           match e with
           | CancelledError => raise e
           | EmptyPool _ =>
               logger_warning "serving_utils.Client -- empty pool";;
               _setup_connections;;
               async_predict_loop request remaining (errors ++ [e])
           | GRPCError status message =>
               fatal ← (if bool_decide (status = NOT_FOUND)
                        then lift_answer (Model_in_message message)
                        else mret false);
               if (fatal : bool) then raise e
               else
                 logger_exception e;;
                 _setup_connections;;
                 async_predict_loop request remaining (errors ++ [e])
           | _ =>
               logger_exception e;;
               _setup_connections;;
               async_predict_loop request remaining (errors ++ [e])
           end)
        (λ response, mret response)
  end.

(** [Client.async_predict] *)
Definition async_predict (data : Data) (output_names : option (list string))
    (model_name : string) (model_signature_name : option string)
  : M (gmap string Value) :=
  _setup_connections;;
  let request :=
    _predict_request data model_name output_names model_signature_name in
  n ← gets (n_trys ∘ self);
  response ← async_predict_loop request (Z.to_nat n) [];
  mret (parse_predict_response response).

(** *** Vocabulary for the statements about the retry loops *)

(** The errors after which [predict] goes on to the next attempt. *)
Definition retryable (e : Exn) : bool :=
  match e with
  | RpcError code details =>
      negb (bool_decide (code = NOT_FOUND) && str_contains "Model" details)
  | CancelledError => cancelled_is_Exception env
  | _ => true
  end.

(** The errors after which [async_predict] goes on to the next attempt. *)
Definition async_retryable (e : Exn) : bool :=
  match e with
  | CancelledError => false
  | GRPCError status message =>
      if bool_decide (status = NOT_FOUND) then
        match message with
        | Some m => negb (str_contains "Model" m)
        | None => false
        end
      else true
  | _ => true
  end.

(** What both loops do with an error they retry on, before the next
    attempt: a log record, then a reconciliation. *)
Definition recover (e : Exn) : M unit :=
  match e with
  | EmptyPool _ => logger_warning "serving_utils.Client -- empty pool"
  | _ => logger_exception e
  end;;
  _setup_connections.

(** The record that [recover] leaves in the log. *)
Definition log_record_of (e : Exn) : LogRecord :=
  match e with
  | EmptyPool _ => LogWarning "serving_utils.Client -- empty pool"
  | _ => LogException e
  end.

(** The resolver answers every query. *)
Definition resolver_total : Prop :=
  ∀ t host, ∃ r, gethostbyname_ex env t host = inr r.

(** The resolver answers every query with no address at all. *)
Definition resolver_empty : Prop :=
  ∀ t host, ∃ hn al, gethostbyname_ex env t host = inr (hn, al, []).

(** Every blocking call to the backend fails with an error that [predict]
    retries on. *)
Definition backend_always_fails : Prop :=
  ∀ t stub request, ∃ e,
    sync_Predict env t stub request = inl e ∧ retryable e = true.

(** [failed_attempts body retried n st es st']: starting in [st], [n] attempts in
    a row fail with the errors [es] (in attempt order), each of them one the
    loop retries on and recovers from; [st'] is the state before the
    attempt that would come next. *)
Inductive failed_attempts (body : M PredictResponse) (retried : Exn → bool)
  : nat → State → list Exn → State → Prop :=
| failed_none st : failed_attempts body retried 0 st [] st
| failed_next n st e st1 st2 es st3 :
    body st = (Raise e, st1) →
    retried e = true →
    recover e st1 = (Return tt, st2) →
    failed_attempts body retried n st2 es st3 →
    failed_attempts body retried (S n) st (e :: es) st3.

End Client.

(** ** Concrete environments and states used in the examples *)

(** An environment given by its scripts; sets are iterated in the order of
    [elements]. *)
Definition scripted_env
    (resolver : nat → string → Exn + (string * list string * list Address))
    (backend async_backend : nat → Stub → PredictRequest → Exn + PredictResponse)
  : Env :=
  {| gethostbyname_ex := resolver;
     sync_Predict := backend;
     async_Predict := async_backend;
     ListModels := λ _ _, inr ["default"];
     set_iter := elements;
     set_iter_perm := λ X, Permutation_refl (elements X);
     cancelled_is_Exception := false |}.

(** A resolver that always answers with the same addresses. *)
Definition resolves_to (addrs : list Address)
  : nat → string → Exn + (string * list string * list Address) :=
  λ _ host, inr (host, [], addrs).

(** The connection [Connection(a, 9999)] whose handles are [h] and [S h]. *)
Definition example_conn (a : Address) (h : Handle) : Connection :=
  {| addr := a; port := 9999;
     sync_channel := InsecureChannel h (a +:+ ":9999") [];
     async_channel := AsyncChannel (S h) a 9999;
     sync_stub := {| stub_channel := InsecureChannel h (a +:+ ":9999") [] |};
     async_stub := {| stub_channel := AsyncChannel (S h) a 9999 |} |}.

Definition example_client (p : RoundRobinMap) : Client :=
  {| _pem := None; _channel_options := []; _host := "localhost"; _port := 9999;
     _pool := p; n_trys := 3 |}.

(** A client with three backends, the cursor on the second. *)
Definition state3 : State :=
  {| self := example_client
       {| rr_entries := [("1.2.3.4", example_conn "1.2.3.4" 0);
                         ("5.6.7.8", example_conn "5.6.7.8" 2);
                         ("9.10.11.12", example_conn "9.10.11.12" 4)];
          rr_cursor := 1 |};
     world := {| calls := [CallResolve "localhost"]; next_handle := 6;
                 live_handles := list_to_set [0; 1; 2; 3; 4; 5]%nat; log := [] |} |}.

(** Backends: one that is down, one that answers. *)
Definition backend_down : nat → Stub → PredictRequest → Exn + PredictResponse :=
  λ _ _ _, inl (RpcError UNAVAILABLE "failed to connect to all addresses").

Definition async_backend_down
  : nat → Stub → PredictRequest → Exn + PredictResponse :=
  λ _ _ _, inl (GRPCError UNAVAILABLE None).

Definition backend_up : nat → Stub → PredictRequest → Exn + PredictResponse :=
  λ _ _ _, inr {| outputs := [("c", "5")] |}.

(** The name resolves to two addresses, both down. *)
Definition env_down : Env :=
  scripted_env (resolves_to ["5.6.7.8"; "7.7.7.7"]) backend_down async_backend_down.

(** The name resolves to no address (scaled to zero). *)
Definition env_scaled_to_zero : Env :=
  scripted_env (resolves_to []) backend_down async_backend_down.

(** The name resolves to one address, which answers. *)
Definition env_up : Env :=
  scripted_env (resolves_to ["1.2.3.4"]) backend_up backend_up.

(** A backend that fails with [early] on calls made before tick [k] and with
    [late] from then on. *)
Definition fails_then (k : nat) (early late : Exn)
  : nat → Stub → PredictRequest → Exn + PredictResponse :=
  λ t _ _, if decide (t < k)%nat then inl early else inl late.

Definition three_addresses : list Address :=
  ["1.2.3.4"; "5.6.7.8"; "9.10.11.12"].

(** From tick [k] on the backend reports that the model does not exist. *)
Definition env_no_model (k : nat) : Env :=
  scripted_env (resolves_to three_addresses)
    (fails_then k (RpcError UNAVAILABLE "failed to connect to all addresses")
                  (RpcError NOT_FOUND "Model test_model not found"))
    (fails_then k (GRPCError UNAVAILABLE None)
                  (GRPCError NOT_FOUND (Some "Model test_model not found"))).

(** From tick [k] on the backend reports a missing servable, in words that
    do not contain the substring. *)
Definition env_no_servable (k : nat) : Env :=
  scripted_env (resolves_to three_addresses)
    (fails_then k (RpcError UNAVAILABLE "failed to connect to all addresses")
                  (RpcError NOT_FOUND "Servable not found for request"))
    (fails_then k (GRPCError UNAVAILABLE None)
                  (GRPCError NOT_FOUND (Some "Servable not found for request"))).

(** From tick [k] on the pending call is cancelled by the caller. *)
Definition env_cancelled (k : nat) : Env :=
  scripted_env (resolves_to three_addresses) backend_down
    (fails_then k (GRPCError UNAVAILABLE None) CancelledError).

(** A client built while the name resolved to nothing. *)
Definition state_empty : State :=
  {| self := example_client rr_empty;
     world := {| calls := [CallResolve "localhost"]; next_handle := 0;
                 live_handles := ∅; log := [] |} |}.

(** The request of the test suite. *)
Definition example_data : Data :=
  OriginalData [ {| pi_name := "a"; pi_value := "2" |};
                 {| pi_name := "b"; pi_value := "3" |} ].

Definition example_request : PredictRequest :=
  _predict_request example_data "test_model" (Some ["c"]) (Some "test").

(** A backend that fails with [early] on calls made before tick [k] and
    answers from then on. *)
Definition answers_after (k : nat) (early : Exn)
  : nat → Stub → PredictRequest → Exn + PredictResponse :=
  λ t _ _, if decide (t < k)%nat then inl early else inr {| outputs := [("c", "5")] |}.

(** The backends are down until tick [k]. *)
Definition env_recovers (k : nat) : Env :=
  scripted_env (resolves_to three_addresses)
    (answers_after k (RpcError UNAVAILABLE "failed to connect to all addresses"))
    (answers_after k (GRPCError UNAVAILABLE None)).

(** The name stops resolving at tick [k]; the backends are down. *)
Definition env_dns_lost (k : nat) : Env :=
  scripted_env
    (λ t host, if decide (t < k)%nat then inr (host, [], three_addresses)
               else inl (OSError "Name or service not known"))
    backend_down async_backend_down.

(** The client of [state3] with a budget of [n] attempts. *)
Definition state3_with_budget (n : Z) : State :=
  {| self := {| _pem := None; _channel_options := []; _host := "localhost";
                _port := 9999; _pool := _pool (self state3); n_trys := n |};
     world := world state3 |}.

(** From tick [k] on the awaitable backend reports NOT_FOUND without any
    message. *)
Definition env_not_found_bare (k : nat) : Env :=
  scripted_env (resolves_to three_addresses) backend_down
    (fails_then k (GRPCError UNAVAILABLE None) (GRPCError NOT_FOUND None)).

(** ** Statements that are compared with the code *)

(** Reconciliation closes the transport handles of every connection it
    evicts: after a run from [st], no handle of an evicted connection is
    live any more. *)
Definition eviction_closes_handles (env : Env) (st : State) : Prop :=
  ∀ st' a conn,
    _setup_connections env st = (Return tt, st') →
    (a, conn) ∈ rr_entries (_pool (self st)) →
    a ∉ rr_keys (_pool (self st')) →
    (channel_handle (sync_channel conn) ∉ live_handles (world st')) ∧
    (channel_handle (async_channel conn) ∉ live_handles (world st')).

(** ** Vocabulary for the further properties *)

(** The connection that [Connection(a, c._port, c._pem, c._channel_options,
    c._loop)] builds when its two channels get the handles [h] and [S h]. *)
Definition new_connection (c : Client) (a : Address) (h : Handle) : Connection :=
  let sync_channel :=
    match _pem c with
    | None =>
        InsecureChannel h (a +:+ ":" +:+ pretty (_port c)) (_channel_options c)
    | Some creds =>
        SecureChannel h (a +:+ ":" +:+ pretty (_port c)) creds (_channel_options c)
    end in
  {| addr := a; port := _port c;
     sync_channel := sync_channel;
     async_channel := AsyncChannel (S h) a (_port c);
     sync_stub := {| stub_channel := sync_channel |};
     async_stub := {| stub_channel := AsyncChannel (S h) a (_port c) |} |}.

(** The entries that the second loop of [_setup_connections] appends for the
    addresses [l], the first handle to be given out being [h]. *)
Fixpoint new_entries (c : Client) (h : Handle) (l : list Address)
  : list (Address * Connection) :=
  match l with
  | [] => []
  | a :: l => (a, new_connection c a h) :: new_entries c (S (S h)) l
  end.

(** The transport handles of a connection and of a whole pool. *)
Definition connection_handles (conn : Connection) : list Handle :=
  [channel_handle (sync_channel conn); channel_handle (async_channel conn)].

Definition entries_handles (es : list (Address * Connection)) : list Handle :=
  concat ((λ e, connection_handles e.2) <$> es).

Definition pool_handles (p : RoundRobinMap) : list Handle :=
  entries_handles (rr_entries p).

(** The state of a client that only its own methods have touched: the pool
    keeps its invariant, every entry holds the connection that was built for
    its key with the settings of the client, no two channels of the pool are
    the same, and all of them are live. *)
Definition pool_ok (st : State) : Prop :=
  rr_wf (_pool (self st)) ∧
  (∀ a conn, (a, conn) ∈ rr_entries (_pool (self st)) →
             ∃ h, conn = new_connection (self st) a h) ∧
  NoDup (pool_handles (_pool (self st))) ∧
  (∀ h, h ∈ pool_handles (_pool (self st)) →
        (h < next_handle (world st))%nat ∧ h ∈ live_handles (world st)).

(** [st'] comes after [st]: same settings, and the calls, the log and the
    live handles of [st] are still there. *)
Definition extends (st st' : State) : Prop :=
  same_config (self st) (self st') ∧
  calls (world st) `prefix_of` calls (world st') ∧
  log (world st) `prefix_of` log (world st') ∧
  live_handles (world st) ⊆ live_handles (world st') ∧
  (next_handle (world st) ≤ next_handle (world st'))%nat.

(** The (name, value) pairs that [_predict_request] goes through, in order,
    for either style of [data]. *)
Definition data_items (data : Data) : list (string * Value) :=
  match data with
  | OriginalData l => (λ d, (pi_name d, pi_value d)) <$> l
  | NewData l => l
  end.

(** A computation that keeps [pool_ok] and only adds to the world. *)
Definition preserves {A} (m : M A) : Prop :=
  ∀ st r st', pool_ok st → m st = (r, st') → pool_ok st' ∧ extends st st'.

Definition is_backend_call (c : Call) : bool :=
  match c with
  | CallPredict _ _ | CallAsyncPredict _ _ => true
  | _ => false
  end.

Definition is_resolver_call (c : Call) : bool :=
  match c with
  | CallResolve _ => true
  | _ => false
  end.

(** How many of the calls made so far satisfy [f]. *)
Definition count_calls (f : Call → bool) (st : State) : nat :=
  length (List.filter f (calls (world st))).

(** A computation that leaves the settings of the client alone and makes at
    most [b] calls to the backend and [r] to the resolver. *)
Definition spends {A} (b r : nat) (m : M A) : Prop :=
  ∀ st res st', m st = (res, st') →
    same_config (self st) (self st') ∧
    (count_calls is_backend_call st' ≤ count_calls is_backend_call st + b)%nat ∧
    (count_calls is_resolver_call st' ≤ count_calls is_resolver_call st + r)%nat.

(** What an attempt of either flavour leaves alone: the log, the number of
    resolver queries and the invariant of the pool. *)
Definition quiet (body : M PredictResponse) : Prop :=
  ∀ st r st1, body st = (r, st1) →
    log (world st1) = log (world st) ∧
    count_calls is_resolver_call st1 = count_calls is_resolver_call st ∧
    (rr_wf (_pool (self st)) → rr_wf (_pool (self st1))).

(** * Properties *)

(** ** The round-robin pool *)

Section Pool.
Implicit Types (p : RoundRobinMap) (es : list (Address * Connection)).

Lemma wrap_lt c n : (0 < n)%nat → (wrap c n < n)%nat.
Proof.
  destruct n; [lia|]. intros _.
  change (wrap c (S n)) with (c mod S n)%nat. apply Nat.mod_upper_bound. lia.
Qed.

Lemma wrap_small c n : (c < n)%nat → wrap c n = c.
Proof.
  destruct n; [lia|]. intros ?.
  change (wrap c (S n)) with (c mod S n)%nat. by apply Nat.mod_small.
Qed.

Lemma rr_next_None p : rr_next p = None ↔ rr_entries p = [].
Proof.
  unfold rr_next. destruct p as [es c]; simpl. split.
  - destruct es as [|e es]; [done|].
    destruct (lookup_lt_is_Some_2 (e :: es) (wrap c (length (e :: es))))
      as [x Hx]; [apply wrap_lt; simpl; lia|].
    by rewrite Hx.
  - by intros ->.
Qed.

Lemma rr_next_Some p e p' :
  rr_next p = Some (e, p') →
  let n := length (rr_entries p) in
  rr_entries p !! wrap (rr_cursor p) n = Some e ∧
  p' = {| rr_entries := rr_entries p; rr_cursor := wrap (S (wrap (rr_cursor p) n)) n |}.
Proof.
  unfold rr_next. destruct (rr_entries p !! _) eqn:E; [|done].
  intros [= <- <-]. done.
Qed.

(** The [j]-th of [k] consecutive selections is the entry [j] places after
    the cursor, cyclically. *)
Lemma rr_visit_lookup es k c j :
  (0 < length es)%nat → (j < k)%nat →
  rr_visit k {| rr_entries := es; rr_cursor := c |} !! j
  = es !! ((c + j) mod length es)%nat.
Proof.
  intros Hn. revert c j. induction k as [|k IH]; intros c j Hj; [lia|].
  simpl. unfold rr_next; simpl.
  assert (wrap c (length es) = c mod length es)%nat as Hw
    by (destruct (length es); [lia|done]).
  destruct (lookup_lt_is_Some_2 es (wrap c (length es))) as [e He];
    [by apply wrap_lt|].
  rewrite He. destruct j as [|j]; simpl.
  - rewrite Nat.add_0_r, <-Hw. done.
  - rewrite IH by lia. f_equal.
    assert (wrap (S (wrap c (length es))) (length es)
            = S (c mod length es) mod length es)%nat as ->
      by (rewrite Hw; destruct (length es); [lia|done]).
    rewrite Nat.Div0.add_mod_idemp_l.
    replace (S (c mod length es) + j)%nat with (c mod length es + S j)%nat by lia.
    by rewrite Nat.Div0.add_mod_idemp_l.
Qed.

Lemma rr_visit_length es k c :
  (0 < length es)%nat →
  length (rr_visit k {| rr_entries := es; rr_cursor := c |}) = k.
Proof.
  intros Hn. revert c. induction k as [|k IH]; intros c; [done|].
  simpl. unfold rr_next; simpl.
  destruct (lookup_lt_is_Some_2 es (wrap c (length es))) as [e He];
    [by apply wrap_lt|].
  rewrite He. simpl. by rewrite IH.
Qed.

(** One full round is the sequence rotated to the cursor. *)
Lemma rr_visit_round p :
  rr_visit (length (rr_entries p)) p = rotate (rr_cursor p) (rr_entries p).
Proof.
  destruct p as [es c]; simpl.
  destruct (decide (length es = 0)%nat) as [H0|Hn].
  { apply nil_length_inv in H0. subst. unfold rotate.
    by rewrite drop_nil, take_nil. }
  apply list_eq. intros j.
  destruct (decide (j < length es)%nat) as [Hj|Hj].
  - rewrite rr_visit_lookup, lookup_rotate_r by lia.
    unfold rotate_nat_add.
    by rewrite <-Nat2Z.inj_add, <-Nat2Z.inj_mod, Nat2Z.id.
  - rewrite !lookup_ge_None_2; [done| |].
    + rewrite length_rotate. lia.
    + rewrite rr_visit_length by lia. lia.
Qed.

Lemma rotate_Permutation {A} n (l : list A) : rotate n l ≡ₚ l.
Proof.
  unfold rotate. rewrite Permutation_app_comm. by rewrite take_drop.
Qed.

Lemma rr_after_entries k p : rr_entries (rr_after k p) = rr_entries p.
Proof.
  revert p. induction k as [|k IH]; intros p; [done|]. simpl.
  destruct (rr_next p) as [[e p']|] eqn:E; [|done].
  apply rr_next_Some in E as [_ ->]. by rewrite IH.
Qed.

Lemma wrap_wrap c n : wrap (wrap c n) n = wrap c n.
Proof.
  destruct n as [|n]; [done|]. apply wrap_small, wrap_lt. lia.
Qed.

Lemma rr_index_None a p : rr_index a p = None ↔ a ∉ rr_keys p.
Proof.
  unfold rr_index, rr_keys.
  destruct (list_find _ (rr_entries p)) as [[i e]|] eqn:E; simpl.
  - apply list_find_Some in E as (He & <- & _). split; [done|].
    intros []. apply list_elem_of_fmap. exists e. split; [done|].
    by eapply list_elem_of_lookup_2.
  - split; [|done]. intros _ [e [-> He]]%list_elem_of_fmap.
    apply list_find_None in E.
    by apply (proj1 (Forall_forall _ _) E e).
Qed.

Lemma rr_index_Some a p i :
  rr_index a p = Some i → rr_keys p !! i = Some a.
Proof.
  unfold rr_index, rr_keys. intros [[j e] [H [= ->]]]%fmap_Some.
  apply list_find_Some in H as (He & <- & _).
  by rewrite list_lookup_fmap, He.
Qed.

Lemma delete_NoDup_elem_of {A} (l : list A) i a x :
  NoDup l → l !! i = Some a → x ∈ delete i l ↔ x ∈ l ∧ x ≠ a.
Proof.
  intros Hnd Hi. rewrite delete_take_drop.
  rewrite <-(take_drop_middle l i a Hi) in Hnd at 1.
  rewrite <-(take_drop_middle l i a Hi) at 3.
  apply NoDup_app in Hnd as (_ & Hdisj & [Hnotin _]%NoDup_cons).
  rewrite !elem_of_app, elem_of_cons. split.
  - intros [Hx|Hx]; (split; [tauto|]); intros ->.
    + apply (Hdisj a Hx). by left.
    + done.
  - intros [[Hx|[->|Hx]] Hne]; tauto.
Qed.

Lemma rr_remove_keys a p :
  NoDup (rr_keys p) →
  NoDup (rr_keys (rr_remove a p)) ∧
  ∀ x, x ∈ rr_keys (rr_remove a p) ↔ x ∈ rr_keys p ∧ x ≠ a.
Proof.
  intros Hnd. unfold rr_remove.
  destruct (rr_index a p) as [i|] eqn:E.
  - apply rr_index_Some in E. unfold rr_keys in *; simpl.
    rewrite list_fmap_delete. split.
    + eapply sublist_NoDup; [done|apply sublist_delete].
    + intros x. by apply delete_NoDup_elem_of.
  - apply rr_index_None in E. split; [done|].
    intros x. split; [|tauto]. intros Hx. split; [done|]. by intros ->.
Qed.

Lemma rr_remove_wf a p : rr_wf p → rr_wf (rr_remove a p).
Proof.
  intros [Hnd Hc]. split; [by apply rr_remove_keys|].
  unfold rr_remove. destruct (rr_index a p); [|done].
  simpl. by rewrite wrap_wrap.
Qed.

Lemma rr_upsert_fresh a c p :
  a ∉ rr_keys p →
  rr_upsert a c p
  = inr {| rr_entries := rr_entries p ++ [(a, c)]; rr_cursor := rr_cursor p |}.
Proof. intros H%rr_index_None. unfold rr_upsert. by rewrite H. Qed.

Lemma rr_append_wf a c p :
  rr_wf p → a ∉ rr_keys p →
  rr_wf {| rr_entries := rr_entries p ++ [(a, c)]; rr_cursor := rr_cursor p |}.
Proof.
  intros [Hnd Hc] Ha. split.
  - unfold rr_keys in *; simpl. rewrite fmap_app. apply NoDup_app.
    split_and!; [done| |apply NoDup_singleton].
    intros x Hx ->%list_elem_of_singleton. done.
  - simpl. rewrite length_app; simpl. symmetry. apply wrap_small.
    destruct (rr_entries p) as [|e es] eqn:E.
    + simpl in *. rewrite Hc. lia.
    + rewrite Hc. pose proof (wrap_lt (rr_cursor p) (length (e :: es))).
      simpl in *. lia.
Qed.

Lemma rr_empty_wf : rr_wf rr_empty.
Proof. split; [constructor|done]. Qed.

End Pool.

(** ** Stepping through the monad *)

Ltac munfold :=
  unfold mbind, M_bind, mret, M_ret, gets, modify, raise, set_pool, set_world,
    lift_answer, compose in *.

Lemma with_pool_id st : with_pool (_pool (self st)) st = st.
Proof. by destruct st as [[]]. Qed.

Lemma with_pool_pool p st : _pool (self (with_pool p st)) = p.
Proof. done. Qed.

Lemma pool_next_eq st :
  pool_next st =
  match rr_next (_pool (self st)) with
  | None => (Return None, st)
  | Some (e, p') => (Return (Some e), with_pool p' st)
  end.
Proof.
  unfold pool_next. munfold.
  by destruct (rr_next (_pool (self st))) as [[e p']|].
Qed.

Lemma get_round_robin_stub_eq is_async st :
  get_round_robin_stub is_async st =
  match rr_next (_pool (self st)) with
  | None => (Raise (EmptyPool "no connections"), st)
  | Some (e, p') =>
      (Return (if is_async then async_stub e.2 else sync_stub e.2), with_pool p' st)
  end.
Proof.
  unfold get_round_robin_stub, mbind, M_bind. rewrite pool_next_eq.
  destruct (rr_next (_pool (self st))) as [[[a conn] p']|]; [|done].
  by destruct is_async.
Qed.

Lemma get_round_robin_stubs_eq is_async k st :
  k = 0%nat ∨ rr_entries (_pool (self st)) ≠ [] →
  get_round_robin_stubs is_async k st =
  (Return ((λ e, if is_async then async_stub e.2 else sync_stub e.2)
             <$> rr_visit k (_pool (self st))),
   with_pool (rr_after k (_pool (self st))) st).
Proof.
  revert st. induction k as [|k IH]; intros st Hne.
  { simpl. by rewrite with_pool_id. }
  destruct Hne as [|Hne]; [done|].
  simpl. unfold mbind, M_bind. rewrite get_round_robin_stub_eq.
  destruct (rr_next (_pool (self st))) as [[e p']|] eqn:E.
  - pose proof (rr_next_Some _ _ _ E) as [_ Hp'].
    rewrite IH; [done|]. right. rewrite with_pool_pool, Hp'. done.
  - by apply rr_next_None in E.
Qed.

(** ** Fairness of the rotation *)

(** C1: in a pool of K distinct addresses, K consecutive selections through
    [get_round_robin_stub] succeed, leave the membership as it was, and visit
    the entries of the pool in rotation from the cursor: every address
    exactly once, whatever the order in which the entries were inserted. *)
Theorem round_robin_visits_each_once (is_async : bool) (st : State) :
  let p := _pool (self st) in
  let K := length (rr_entries p) in
  NoDup (rr_keys p) →
  ∃ visited : list (Address * Connection),
    get_round_robin_stubs is_async K st
    = (Return ((λ e, if is_async then async_stub e.2 else sync_stub e.2) <$> visited),
       with_pool (rr_after K p) st) ∧
    visited = rr_visit K p ∧
    visited = rotate (rr_cursor p) (rr_entries p) ∧
    visited.*1 ≡ₚ rr_keys p ∧
    NoDup visited.*1 ∧
    rr_entries (rr_after K p) = rr_entries p.
Proof.
  intros p K Hnd. exists (rr_visit K p).
  assert (rr_visit K p = rotate (rr_cursor p) (rr_entries p)) as Hrot
    by apply rr_visit_round.
  assert ((rr_visit K p).*1 ≡ₚ rr_keys p) as Hperm.
  { rewrite Hrot. unfold rr_keys. by rewrite rotate_Permutation. }
  split_and!; try done.
  - apply get_round_robin_stubs_eq. subst K p.
    destruct (rr_entries (_pool (self st))); [by left|by right].
  - by rewrite Hperm.
  - apply rr_after_entries.
Qed.

Lemma round_robin_visits_each_once_witness :
  ∃ visited : list (Address * Connection),
    get_round_robin_stubs true 3 state3
    = (Return ((λ e, async_stub e.2) <$> visited),
       with_pool (rr_after 3 (_pool (self state3))) state3) ∧
    visited = rr_visit 3 (_pool (self state3)) ∧
    visited = rotate 1 (rr_entries (_pool (self state3))) ∧
    visited.*1 ≡ₚ ["1.2.3.4"; "5.6.7.8"; "9.10.11.12"] ∧
    NoDup visited.*1 ∧
    rr_entries (rr_after 3 (_pool (self state3))) = rr_entries (_pool (self state3)).
Proof.
  apply (round_robin_visits_each_once true state3).
  apply (bool_decide_unpack _). vm_compute. reflexivity.
Defined.

Lemma record_call_eq c st : record_call c st = (Return tt, with_call c st).
Proof. done. Qed.

Lemma emit_log_eq r st : emit_log r st = (Return tt, with_log r st).
Proof. done. Qed.

#[global] Instance same_config_equiv : Equivalence same_config.
Proof.
  split.
  - by intros c.
  - intros c c' (?&?&?&?&?). by repeat split.
  - intros c1 c2 c3 (?&?&?&?&?) (?&?&?&?&?). repeat split; congruence.
Qed.

(** ** Reconciliation *)

Section Reconcile.
Context (env : Env).

Lemma socket_gethostbyname_ex_eq host st :
  socket_gethostbyname_ex env host st =
  match gethostbyname_ex env (tick (world st)) host with
  | inl e => (Raise e, with_call (CallResolve host) st)
  | inr r => (Return r, with_call (CallResolve host) st)
  end.
Proof.
  unfold socket_gethostbyname_ex. munfold. simpl.
  by destruct (gethostbyname_ex env _ host).
Qed.

Lemma for_each_delitem l st :
  for_each l pool_delitem st
  = (Return tt, with_pool (foldl (λ p a, rr_remove a p) (_pool (self st)) l) st).
Proof.
  revert st. induction l as [|a l IH]; intros st; simpl.
  - by rewrite with_pool_id.
  - unfold mbind, M_bind. unfold pool_delitem at 1. munfold. simpl.
    by rewrite IH.
Qed.

Lemma foldl_remove_wf l p :
  rr_wf p →
  rr_wf (foldl (λ p a, rr_remove a p) p l) ∧
  ∀ x, x ∈ rr_keys (foldl (λ p a, rr_remove a p) p l) ↔ x ∈ rr_keys p ∧ x ∉ l.
Proof.
  revert p. induction l as [|a l IH]; intros p Hwf; simpl.
  - split; [done|]. intros x. rewrite elem_of_nil. tauto.
  - destruct (IH (rr_remove a p) (rr_remove_wf a p Hwf)) as [Hwf' Hx].
    split; [done|]. intros x. rewrite Hx, not_elem_of_cons.
    destruct Hwf as [Hnd _].
    rewrite (proj2 (rr_remove_keys a p Hnd) x). tauto.
Qed.

Lemma connect_fresh a st :
  rr_wf (_pool (self st)) → a ∉ rr_keys (_pool (self st)) →
  ∃ st', connect a st = (Return tt, st') ∧
    rr_wf (_pool (self st')) ∧
    rr_keys (_pool (self st')) = (rr_keys (_pool (self st)) ++ [a])%list ∧
    same_config (self st) (self st') ∧
    calls (world st') = calls (world st) ∧
    log (world st') = log (world st) ∧
    live_handles (world st) ⊆ live_handles (world st').
Proof.
  intros Hwf Ha. unfold connect, Connection_init, pool_setitem, open_handle.
  munfold. simpl. rewrite (rr_upsert_fresh _ _ _ Ha). simpl.
  eexists. split; [done|]. simpl. split_and!; try done.
  - by apply rr_append_wf.
  - unfold rr_keys; simpl. by rewrite fmap_app.
  - set_solver.
Qed.

Lemma for_each_connect l st :
  rr_wf (_pool (self st)) → NoDup l →
  (∀ x, x ∈ l → x ∉ rr_keys (_pool (self st))) →
  ∃ st', for_each l connect st = (Return tt, st') ∧
    rr_wf (_pool (self st')) ∧
    rr_keys (_pool (self st')) = (rr_keys (_pool (self st)) ++ l)%list ∧
    same_config (self st) (self st') ∧
    calls (world st') = calls (world st) ∧
    log (world st') = log (world st) ∧
    live_handles (world st) ⊆ live_handles (world st').
Proof.
  revert st. induction l as [|a l IH]; intros st Hwf Hnd Hfresh; simpl.
  - exists st. rewrite app_nil_r. by split_and!.
  - apply NoDup_cons in Hnd as [Hal Hnd].
    destruct (connect_fresh a st Hwf) as (st1 & E1 & Hwf1 & Hk1 & Hc1 & Hcalls1 & Hl1 & Hh1).
    { apply Hfresh. by left. }
    destruct (IH st1 Hwf1 Hnd) as (st2 & E2 & Hwf2 & Hk2 & Hc2 & Hcalls2 & Hl2 & Hh2).
    { intros x Hx. rewrite Hk1, elem_of_app, list_elem_of_singleton.
      intros [Hin| ->]; [|done]. apply (Hfresh x); [by right|done]. }
    exists st2. unfold mbind, M_bind. rewrite E1, E2.
    split_and!; try done.
    + by rewrite Hk2, Hk1, <-app_assoc.
    + by etrans.
    + congruence.
    + congruence.
    + set_solver.
Qed.

Lemma setup_connections_resolver_error st e :
  gethostbyname_ex env (tick (world st)) (_host (self st)) = inl e →
  _setup_connections env st
  = (Raise e, with_call (CallResolve (_host (self st))) st).
Proof.
  intros H. unfold _setup_connections, mbind, M_bind, gets, compose at 1.
  by rewrite socket_gethostbyname_ex_eq, H.
Qed.

(** What one run of reconciliation does when the resolver answers. *)
Lemma setup_connections_spec st hn al addrs :
  rr_wf (_pool (self st)) →
  gethostbyname_ex env (tick (world st)) (_host (self st)) = inr (hn, al, addrs) →
  ∃ st', _setup_connections env st = (Return tt, st') ∧
    rr_wf (_pool (self st')) ∧
    (∀ x, x ∈ rr_keys (_pool (self st')) ↔ x ∈ addrs) ∧
    same_config (self st) (self st') ∧
    calls (world st') = (calls (world st) ++ [CallResolve (_host (self st))])%list ∧
    log (world st') = log (world st) ∧
    live_handles (world st) ⊆ live_handles (world st') ∧
    (list_to_set (rr_keys (_pool (self st))) =@{gset Address} list_to_set addrs →
     st' = with_call (CallResolve (_host (self st))) st).
Proof.
  intros Hwf Hres.
  unfold _setup_connections, mbind, M_bind, gets, compose at 1.
  rewrite socket_gethostbyname_ex_eq, Hres. simpl.
  set (st0 := with_call (CallResolve (_host (self st))) st).
  set (orig := list_to_set (rr_keys (_pool (self st))) : gset Address).
  set (cur := list_to_set addrs : gset Address).
  destruct (decide (orig = cur)) as [Heq|Hne].
  { exists st0. split_and!; try done.
    intros x. rewrite <-(elem_of_list_to_set (C:=gset Address) x addrs).
    fold cur. rewrite <-Heq. subst orig. by rewrite elem_of_list_to_set. }
  unfold mbind, M_bind. rewrite for_each_delitem.
  set (p1 := foldl _ _ _).
  destruct (foldl_remove_wf (set_iter env (orig ∖ cur)) (_pool (self st0)) Hwf)
    as [Hwf1 Hk1]. fold p1 in Hwf1, Hk1. clearbody p1.
  destruct (for_each_connect (set_iter env (cur ∖ orig)) (with_pool p1 st0))
    as (st2 & E2 & Hwf2 & Hk2 & Hc2 & Hcalls2 & Hl2 & Hh2).
  - done.
  - rewrite set_iter_perm. apply NoDup_elements.
  - intros x. rewrite set_iter_perm, elem_of_elements, with_pool_pool, Hk1.
    rewrite set_iter_perm, elem_of_elements. subst orig cur st0.
    rewrite !elem_of_difference, !elem_of_list_to_set. simpl.
    intros [_ Hn] [Hk _]. by apply Hn.
  - exists st2. rewrite E2. split_and!; try done.
    + intros x. rewrite Hk2, elem_of_app, with_pool_pool, Hk1.
      rewrite !set_iter_perm, !elem_of_elements. subst orig cur st0.
      rewrite !elem_of_difference, !elem_of_list_to_set. simpl.
      destruct (decide (x ∈ addrs)) as [Ha|Ha];
        destruct (decide (x ∈ rr_keys (_pool (self st)))) as [Hk|Hk].
      * split; [done|]. intros _. left. split; [done|]. by intros [_ []].
      * split; [done|]. intros _. by right.
      * split; [|done]. intros [[_ []]|[? _]]; done.
      * split; [|done]. intros [[? _]|[? _]]; done.
Qed.

End Reconcile.

(** ** The retry loops *)

Section Retry.
Context (env : Env).
Implicit Types (request : PredictRequest) (errors es : list Exn) (st : State).

Lemma bind_assoc_at {A B C} (m : M A) (f : A → M B) (g : B → M C) st :
  ((m ≫= f) ≫= g) st = (m ≫= (λ a, f a ≫= g)) st.
Proof. unfold mbind, M_bind. by destruct (m st) as [[a|e] st']. Qed.

Lemma recover_then {A} e (k : M A) st :
  (recover env e ;; k) st
  = match e with
    | EmptyPool _ =>
        (logger_warning "serving_utils.Client -- empty pool";;
         _setup_connections env;; k) st
    | _ => (logger_exception e;; _setup_connections env;; k) st
    end.
Proof. unfold recover. rewrite bind_assoc_at. by destruct e. Qed.

(** One more iteration after an error the blocking loop retries on. *)
Lemma predict_loop_retry request k errors st e st1 :
  attempt env request st = (Raise e, st1) →
  retryable env e = true →
  predict_loop env request (S k) errors st
  = (recover env e ;; predict_loop env request k (errors ++ [e])) st1.
Proof.
  intros Hatt Hre. rewrite recover_then. simpl. unfold try_except_else.
  rewrite Hatt. destruct e; simpl in *; try done.
  - apply negb_true_iff in Hre. by rewrite Hre.
  - by rewrite Hre.
Qed.

Lemma predict_loop_success request k errors st r st1 :
  attempt env request st = (Return r, st1) →
  predict_loop env request (S k) errors st = (Return r, st1).
Proof. intros Hatt. simpl. unfold try_except_else. by rewrite Hatt. Qed.

Lemma predict_loop_fatal request k errors st d st1 :
  attempt env request st = (Raise (RpcError NOT_FOUND d), st1) →
  str_contains "Model" d = true →
  predict_loop env request (S k) errors st = (Raise (RpcError NOT_FOUND d), st1).
Proof.
  intros Hatt Hd. simpl. unfold try_except_else. rewrite Hatt.
  by rewrite Hd.
Qed.

(** The same three facts on the awaitable surface. *)
Lemma async_predict_loop_retry request k errors st e st1 :
  async_attempt env request st = (Raise e, st1) →
  async_retryable e = true →
  async_predict_loop env request (S k) errors st
  = (recover env e ;; async_predict_loop env request k (errors ++ [e])) st1.
Proof.
  intros Hatt Hre. rewrite recover_then. simpl. unfold try_except_else.
  rewrite Hatt. destruct e; simpl in *; try done.
  unfold mbind, M_bind at 1. case_bool_decide; [|done].
  destruct message as [m|]; [|done]. simpl.
  apply negb_true_iff in Hre. by rewrite Hre.
Qed.

Lemma async_predict_loop_success request k errors st r st1 :
  async_attempt env request st = (Return r, st1) →
  async_predict_loop env request (S k) errors st = (Return r, st1).
Proof. intros Hatt. simpl. unfold try_except_else. by rewrite Hatt. Qed.

Lemma async_predict_loop_fatal request k errors st m st1 :
  async_attempt env request st = (Raise (GRPCError NOT_FOUND (Some m)), st1) →
  str_contains "Model" m = true →
  async_predict_loop env request (S k) errors st
  = (Raise (GRPCError NOT_FOUND (Some m)), st1).
Proof.
  intros Hatt Hm. simpl. unfold try_except_else. rewrite Hatt.
  unfold mbind, M_bind. simpl. by rewrite Hm.
Qed.

Lemma async_predict_loop_cancelled request k errors st st1 :
  async_attempt env request st = (Raise CancelledError, st1) →
  async_predict_loop env request (S k) errors st = (Raise CancelledError, st1).
Proof. intros Hatt. simpl. unfold try_except_else. by rewrite Hatt. Qed.

(** After [j] failed attempts the loop is where it would be had it started
    with [j] fewer iterations and the errors already recorded. *)
Lemma predict_loop_failed_attempts request j k errors st es st1 :
  failed_attempts env (attempt env request) (retryable env) j st es st1 →
  predict_loop env request (j + k) errors st
  = predict_loop env request k (errors ++ es) st1.
Proof.
  intros Hrun. revert errors.
  induction Hrun as [st|n st e st1 st2 es st3 Hatt Hre Hrec _ IH]; intros errors.
  - by rewrite app_nil_r.
  - change (S n + k)%nat with (S (n + k)).
    rewrite (predict_loop_retry _ _ _ _ _ _ Hatt Hre).
    unfold mbind, M_bind at 1. rewrite Hrec, IH. by rewrite <-app_assoc.
Qed.

Lemma async_predict_loop_failed_attempts request j k errors st es st1 :
  failed_attempts env (async_attempt env request) async_retryable j st es st1 →
  async_predict_loop env request (j + k) errors st
  = async_predict_loop env request k (errors ++ es) st1.
Proof.
  intros Hrun. revert errors.
  induction Hrun as [st|n st e st1 st2 es st3 Hatt Hre Hrec _ IH]; intros errors.
  - by rewrite app_nil_r.
  - change (S n + k)%nat with (S (n + k)).
    rewrite (async_predict_loop_retry _ _ _ _ _ _ Hatt Hre).
    unfold mbind, M_bind at 1. rewrite Hrec, IH. by rewrite <-app_assoc.
Qed.

Lemma failed_attempts_length body retried n st es st1 :
  failed_attempts env body retried n st es st1 → length es = n.
Proof. induction 1; simpl; congruence. Qed.

Lemma rr_next_wf p e p' : rr_wf p → rr_next p = Some (e, p') → rr_wf p'.
Proof.
  intros [Hnd Hc] [_ ->]%rr_next_Some. split; [done|]. simpl.
  by rewrite wrap_wrap.
Qed.

Lemma attempt_eq request st :
  attempt env request st =
  match rr_next (_pool (self st)) with
  | None => (Raise (EmptyPool "no connections"), st)
  | Some (e, p') =>
      let st1 := with_call (CallPredict (sync_stub e.2) request) (with_pool p' st) in
      match sync_Predict env (tick (world st)) (sync_stub e.2) request with
      | inl x => (Raise x, st1)
      | inr r => (Return r, st1)
      end
  end.
Proof.
  unfold attempt, mbind, M_bind. rewrite get_round_robin_stub_eq.
  destruct (rr_next (_pool (self st))) as [[e p']|]; [|done].
  unfold Predict. munfold. simpl.
  by destruct (sync_Predict env _ _ request).
Qed.

Lemma async_attempt_eq request st :
  async_attempt env request st =
  match rr_next (_pool (self st)) with
  | None => (Raise (EmptyPool "no connections"), st)
  | Some (e, p') =>
      let st1 :=
        with_call (CallAsyncPredict (async_stub e.2) request) (with_pool p' st) in
      match async_Predict env (tick (world st)) (async_stub e.2) request with
      | inl x => (Raise x, st1)
      | inr r => (Return r, st1)
      end
  end.
Proof.
  unfold async_attempt, mbind, M_bind. rewrite get_round_robin_stub_eq.
  destruct (rr_next (_pool (self st))) as [[e p']|]; [|done].
  unfold await_Predict. munfold. simpl.
  by destruct (async_Predict env _ _ request).
Qed.

Lemma recover_eq e st :
  recover env e st = _setup_connections env (with_log (log_record_of e) st).
Proof. unfold recover, mbind, M_bind. by destruct e. Qed.

(** A reconciliation that finds the pool in agreement with the resolver
    only records the query. *)
Lemma setup_connections_fast st hn al addrs :
  gethostbyname_ex env (tick (world st)) (_host (self st)) = inr (hn, al, addrs) →
  list_to_set (rr_keys (_pool (self st))) =@{gset Address} list_to_set addrs →
  _setup_connections env st
  = (Return tt, with_call (CallResolve (_host (self st))) st).
Proof.
  intros Hres Heq.
  unfold _setup_connections, mbind, M_bind, gets, compose at 1.
  rewrite socket_gethostbyname_ex_eq, Hres. simpl.
  by rewrite decide_True.
Qed.

(** With a resolver that always answers and a backend that always fails,
    any number of attempts in a row fail and are recovered from. *)
Lemma attempts_all_fail request n st :
  resolver_total env → backend_always_fails env →
  rr_wf (_pool (self st)) →
  ∃ es st',
    failed_attempts env (attempt env request) (retryable env) n st es st' ∧
    rr_wf (_pool (self st')) ∧ same_config (self st) (self st').
Proof.
  intros Hres Hfail. revert st. induction n as [|n IH]; intros st Hwf.
  { exists [], st. split_and!; [constructor|done..]. }
  assert (∃ e st1, attempt env request st = (Raise e, st1) ∧
            retryable env e = true ∧ rr_wf (_pool (self st1)) ∧
            same_config (self st) (self st1)) as (e & st1 & Hatt & Hre & Hwf1 & Hc1).
  { rewrite attempt_eq.
    destruct (rr_next (_pool (self st))) as [[x p']|] eqn:E.
    - destruct (Hfail (tick (world st)) (sync_stub x.2) request) as (e & -> & Hre).
      eexists _, _. split_and!; [done..| |done].
      simpl. by eapply rr_next_wf.
    - by eexists _, _. }
  destruct (Hres (tick (world (with_log (log_record_of e) st1)))
              (_host (self st1))) as [[[hn al] addrs] Hans].
  destruct (setup_connections_spec env (with_log (log_record_of e) st1)
              hn al addrs Hwf1 Hans) as (st2 & Hset & Hwf2 & _ & Hc2 & _).
  destruct (IH st2 Hwf2) as (es & st3 & Hrun & Hwf3 & Hc3).
  exists (e :: es), st3. split_and!; [|done|].
  - econstructor; [done..| |done]. by rewrite recover_eq.
  - etrans; [exact Hc1|]. etrans; [exact Hc2|]. done.
Qed.

(** With a resolver that knows no address, every attempt on an empty pool
    fails in the selection and leaves the pool empty; only the resolver is
    called. *)
Lemma attempts_on_empty_pool request n st :
  resolver_empty env →
  rr_entries (_pool (self st)) = [] →
  ∃ st',
    failed_attempts env (attempt env request) (retryable env) n st
      (replicate n (EmptyPool "no connections")) st' ∧
    self st' = self st ∧
    calls (world st')
    = (calls (world st) ++ replicate n (CallResolve (_host (self st))))%list.
Proof.
  intros Hres. revert st. induction n as [|n IH]; intros st Hemp.
  { exists st. split_and!; [constructor|done|]. simpl. by rewrite app_nil_r. }
  set (st1 := with_log (LogWarning "serving_utils.Client -- empty pool") st).
  destruct (Hres (tick (world st1)) (_host (self st1))) as (hn & al & Hans).
  assert (_setup_connections env st1
          = (Return tt, with_call (CallResolve (_host (self st1))) st1)) as Hset.
  { eapply setup_connections_fast; [done|].
    unfold rr_keys. simpl. by rewrite Hemp. }
  destruct (IH (with_call (CallResolve (_host (self st1))) st1) Hemp)
    as (st3 & Hrun & Hself & Hcalls).
  exists st3. split_and!.
  - simpl. econstructor; [| |by rewrite recover_eq|done]; [|done].
    rewrite attempt_eq.
    by rewrite (proj2 (rr_next_None (_pool (self st))) Hemp).
  - done.
  - rewrite Hcalls. simpl. by rewrite <-app_assoc.
Qed.

End Retry.

(** ** The public methods, unfolded *)

Section Methods.
Context (env : Env).

Lemma predict_eq data output_names model_name model_signature_name st :
  predict env data output_names model_name model_signature_name st =
  match _setup_connections env st with
  | (Raise e, st0) => (Raise e, st0)
  | (Return _, st0) =>
      match predict_loop env
              (_predict_request data model_name output_names model_signature_name)
              (Z.to_nat (n_trys (self st0))) [] st0 with
      | (Raise e, st') => (Raise e, st')
      | (Return r, st') => (Return (parse_predict_response r), st')
      end
  end.
Proof.
  unfold predict, mbind, M_bind.
  destruct (_setup_connections env st) as [[[]|e] st0]; [|done].
  unfold gets, compose, mret, M_ret.
  by destruct (predict_loop env _ _ [] st0) as [[r|e] st'].
Qed.

Lemma async_predict_eq data output_names model_name model_signature_name st :
  async_predict env data output_names model_name model_signature_name st =
  match _setup_connections env st with
  | (Raise e, st0) => (Raise e, st0)
  | (Return _, st0) =>
      match async_predict_loop env
              (_predict_request data model_name output_names model_signature_name)
              (Z.to_nat (n_trys (self st0))) [] st0 with
      | (Raise e, st') => (Raise e, st')
      | (Return r, st') => (Return (parse_predict_response r), st')
      end
  end.
Proof.
  unfold async_predict, mbind, M_bind.
  destruct (_setup_connections env st) as [[[]|e] st0]; [|done].
  unfold gets, compose, mret, M_ret.
  by destruct (async_predict_loop env _ _ [] st0) as [[r|e] st'].
Qed.


Lemma predict_loop_exhausted request errors st :
  predict_loop env request 0 errors st
  = (Raise (RetryFailed ("Failed after " +:+ pretty (n_trys (self st)) +:+ " tries")
              errors), st).
Proof. done. Qed.

Lemma async_predict_loop_exhausted request errors st :
  async_predict_loop env request 0 errors st
  = (Raise (RetryFailed ("Failed after " +:+ pretty (n_trys (self st)) +:+ " tries")
              errors), st).
Proof. done. Qed.

(** When all [n] iterations fail, the loop raises the aggregate. *)
Lemma predict_loop_all_failed request n errors st es st' :
  failed_attempts env (attempt env request) (retryable env) n st es st' →
  predict_loop env request n errors st
  = (Raise (RetryFailed ("Failed after " +:+ pretty (n_trys (self st')) +:+ " tries")
              (errors ++ es)), st').
Proof.
  intros Hrun. rewrite <-(Nat.add_0_r n) at 1.
  by rewrite (predict_loop_failed_attempts env request n 0 errors st es st' Hrun).
Qed.

(** The constructor leaves a pool that satisfies the invariant. *)
Lemma Client_init_wf host port n pem channel_options w c w' :
  Client_init env host port n pem channel_options w = (Return c, w') →
  rr_wf (_pool c).
Proof.
  unfold Client_init. set (st := {| self := _; world := w |}).
  destruct (_setup_connections env st) as [[[]|e] st'] eqn:E; [|done].
  intros [= <- <-].
  destruct (gethostbyname_ex env (tick (world st)) (_host (self st)))
    as [e|[[hn al] addrs]] eqn:Hres.
  - by rewrite (setup_connections_resolver_error env st e Hres) in E.
  - destruct (setup_connections_spec env st hn al addrs rr_empty_wf Hres)
      as (st2 & E2 & Hwf & _). congruence.
Qed.

End Methods.

(** ** Membership convergence *)

Lemma state3_wf : rr_wf (_pool (self state3)).
Proof. split; [|done]. apply (bool_decide_unpack _). by vm_compute. Defined.

(** C2: whatever the pool held before, one run of reconciliation against the
    address list the resolver returns leaves the pool with exactly that set
    of keys; a second run against the same set takes the fast path and only
    records the resolver query. *)
Theorem reconcile_converges (env : Env) (st : State) hn al (addrs : list Address) :
  rr_wf (_pool (self st)) →
  gethostbyname_ex env (tick (world st)) (_host (self st)) = inr (hn, al, addrs) →
  ∃ st1,
    _setup_connections env st = (Return tt, st1) ∧
    list_to_set (rr_keys (_pool (self st1))) =@{gset Address} list_to_set addrs ∧
    rr_wf (_pool (self st1)) ∧
    ∀ hn' al' addrs',
      gethostbyname_ex env (tick (world st1)) (_host (self st1))
      = inr (hn', al', addrs') →
      list_to_set addrs' =@{gset Address} list_to_set addrs →
      _setup_connections env st1
      = (Return tt, with_call (CallResolve (_host (self st1))) st1).
Proof.
  intros Hwf Hres.
  destruct (setup_connections_spec env st hn al addrs Hwf Hres)
    as (st1 & E1 & Hwf1 & Hk1 & _).
  assert (list_to_set (rr_keys (_pool (self st1))) =@{gset Address} list_to_set addrs)
    as Hset.
  { apply set_eq. intros x. by rewrite !elem_of_list_to_set. }
  exists st1. split_and!; [done..|].
  intros hn' al' addrs' Hres' Hsame.
  eapply setup_connections_fast; [done|]. congruence.
Qed.

Lemma reconcile_converges_witness :
  ∃ st1,
    _setup_connections env_down state3 = (Return tt, st1) ∧
    list_to_set (rr_keys (_pool (self st1)))
    =@{gset Address} list_to_set ["5.6.7.8"; "7.7.7.7"] ∧
    rr_wf (_pool (self st1)) ∧
    ∀ hn' al' addrs',
      gethostbyname_ex env_down (tick (world st1)) (_host (self st1))
      = inr (hn', al', addrs') →
      list_to_set addrs' =@{gset Address} list_to_set ["5.6.7.8"; "7.7.7.7"] →
      _setup_connections env_down st1
      = (Return tt, with_call (CallResolve (_host (self st1))) st1).
Proof.
  apply (reconcile_converges env_down state3 "localhost" []).
  - exact state3_wf.
  - reflexivity.
Defined.

(** ** Eviction *)

(** The claim of C5 as stated fails: with the resolver scaled to zero, the
    reconciliation of [state3] evicts 1.2.3.4 and leaves its handles live. *)
Lemma eviction_leaves_handles_live :
  ¬ eviction_closes_handles env_scaled_to_zero state3.
Proof.
  intros H.
  destruct (H (_setup_connections env_scaled_to_zero state3).2
              "1.2.3.4" (example_conn "1.2.3.4" 0)) as [Hsync _].
  - by vm_compute.
  - by left.
  - apply (bool_decide_unpack _). by vm_compute.
  - apply Hsync. apply (bool_decide_unpack _). by vm_compute.
Qed.

(** C5 (amended): every address that is in the pool and absent from the
    resolver's answer is removed from the pool by the reconciliation, and the
    reconciliation closes no transport handle: whatever was live before it,
    the handles of the evicted connections included, is live after it. *)
Theorem eviction_removes_entry_keeps_handles (env : Env) (st : State) hn al addrs :
  rr_wf (_pool (self st)) →
  gethostbyname_ex env (tick (world st)) (_host (self st)) = inr (hn, al, addrs) →
  ∃ st',
    _setup_connections env st = (Return tt, st') ∧
    ∀ a conn,
      (a, conn) ∈ rr_entries (_pool (self st)) → a ∉ addrs →
      (a ∉ rr_keys (_pool (self st'))) ∧
      ∀ h, h ∈ live_handles (world st) → h ∈ live_handles (world st').
Proof.
  intros Hwf Hres.
  destruct (setup_connections_spec env st hn al addrs Hwf Hres)
    as (st' & E & _ & Hk & _ & _ & _ & Hlive & _).
  exists st'. split; [done|]. intros a conn _ Ha. split.
  - by rewrite Hk.
  - intros h Hh. by apply Hlive.
Qed.

Lemma eviction_removes_entry_keeps_handles_witness :
  ∃ st',
    _setup_connections env_scaled_to_zero state3 = (Return tt, st') ∧
    ∀ a conn,
      (a, conn) ∈ rr_entries (_pool (self state3)) → a ∉ [] →
      (a ∉ rr_keys (_pool (self st'))) ∧
      ∀ h, h ∈ live_handles (world state3) → h ∈ live_handles (world st').
Proof.
  apply (eviction_removes_entry_keeps_handles env_scaled_to_zero state3 "localhost" []).
  - exact state3_wf.
  - reflexivity.
Defined.

(** ** Retry budget *)

(** C3: when the resolver keeps answering and every call to the backend fails
    with an error that [predict] retries on, [predict] raises [RetryFailed];
    its [errors] are the errors of the attempts, one per attempt and in the
    order of the attempts, so there are exactly [n_trys] of them. *)
Theorem predict_exhausts_retry_budget (env : Env) data output_names model_name
    model_signature_name (st : State) :
  let request := _predict_request data model_name output_names model_signature_name in
  let n := Z.to_nat (n_trys (self st)) in
  rr_wf (_pool (self st)) →
  resolver_total env →
  backend_always_fails env →
  ∃ st0 es st',
    _setup_connections env st = (Return tt, st0) ∧
    failed_attempts env (attempt env request) (retryable env) n st0 es st' ∧
    length es = n ∧
    predict env data output_names model_name model_signature_name st
    = (Raise (RetryFailed ("Failed after " +:+ pretty (n_trys (self st)) +:+ " tries")
                es), st').
Proof.
  intros request n Hwf Hres Hfail.
  destruct (Hres (tick (world st)) (_host (self st))) as [[[hn al] addrs] Hans].
  destruct (setup_connections_spec env st hn al addrs Hwf Hans)
    as (st0 & E0 & Hwf0 & _ & Hc0 & _).
  destruct (attempts_all_fail env request n st0 Hres Hfail Hwf0)
    as (es & st' & Hrun & _ & Hc').
  exists st0, es, st'. split_and!; [done..| |].
  - by eapply failed_attempts_length.
  - rewrite predict_eq, E0. fold request.
    assert (n_trys (self st0) = n_trys (self st)) as Hn0 by (symmetry; apply Hc0).
    assert (n_trys (self st') = n_trys (self st)) as Hn'
      by (rewrite <-Hn0; symmetry; apply Hc').
    rewrite Hn0. fold n.
    rewrite (predict_loop_all_failed env request n [] st0 es st' Hrun).
    by rewrite Hn'.
Qed.

Lemma env_down_resolver_total : resolver_total env_down.
Proof. intros t host. by eexists. Defined.

Lemma env_down_backend_always_fails : backend_always_fails env_down.
Proof. intros t stub request. by eexists. Defined.

Lemma predict_exhausts_retry_budget_witness :
  ∃ st0 es st',
    _setup_connections env_down state3 = (Return tt, st0) ∧
    failed_attempts env_down (attempt env_down example_request)
      (retryable env_down) 3 st0 es st' ∧
    length es = 3%nat ∧
    predict env_down example_data (Some ["c"]) "test_model" (Some "test") state3
    = (Raise (RetryFailed "Failed after 3 tries" es), st').
Proof.
  apply (predict_exhausts_retry_budget env_down example_data (Some ["c"])
           "test_model" (Some "test") state3).
  - exact state3_wf.
  - exact env_down_resolver_total.
  - exact env_down_backend_always_fails.
Defined.

(** ** Scale to zero *)

(** C7: when the resolver answers every query with the empty set, the first
    reconciliation empties the pool, every selection fails with [EmptyPool],
    and [predict] raises [RetryFailed] whose errors are [EmptyPool] errors,
    one per attempt; the backend is never called. *)
Theorem predict_on_empty_pool (env : Env) data output_names model_name
    model_signature_name (st : State) :
  let n := Z.to_nat (n_trys (self st)) in
  rr_wf (_pool (self st)) →
  resolver_empty env →
  ∃ st0 st',
    _setup_connections env st = (Return tt, st0) ∧
    rr_entries (_pool (self st0)) = [] ∧
    (∀ is_async,
       get_round_robin_stub is_async st0 = (Raise (EmptyPool "no connections"), st0)) ∧
    predict env data output_names model_name model_signature_name st
    = (Raise (RetryFailed ("Failed after " +:+ pretty (n_trys (self st)) +:+ " tries")
                (replicate n (EmptyPool "no connections"))), st') ∧
    rr_entries (_pool (self st')) = [] ∧
    calls (world st')
    = (calls (world st) ++ replicate (S n) (CallResolve (_host (self st))))%list.
Proof.
  intros n Hwf Hres.
  destruct (Hres (tick (world st)) (_host (self st))) as (hn & al & Hans).
  destruct (setup_connections_spec env st hn al [] Hwf Hans)
    as (st0 & E0 & Hwf0 & Hk0 & Hc0 & Hcalls0 & _).
  assert (rr_entries (_pool (self st0)) = []) as Hemp.
  { destruct (rr_entries (_pool (self st0))) as [|[a c] es] eqn:E; [done|].
    exfalso. apply (elem_of_nil a), Hk0. unfold rr_keys. rewrite E. by left. }
  set (request := _predict_request data model_name output_names model_signature_name).
  destruct (attempts_on_empty_pool env request n st0 Hres Hemp)
    as (st' & Hrun & Hself & Hcalls).
  assert (n_trys (self st0) = n_trys (self st)) as Hn0 by (symmetry; apply Hc0).
  assert (_host (self st0) = _host (self st)) as Hh0 by (symmetry; apply Hc0).
  exists st0, st'. split_and!; [done..| | | |].
  - intros is_async. rewrite get_round_robin_stub_eq.
    by rewrite (proj2 (rr_next_None (_pool (self st0))) Hemp).
  - rewrite predict_eq, E0. fold request. rewrite Hn0. fold n.
    rewrite (predict_loop_all_failed env request n [] st0 _ st' Hrun).
    by rewrite Hself, Hn0.
  - by rewrite Hself.
  - rewrite Hcalls, Hcalls0, Hh0. by rewrite <-app_assoc.
Qed.

Lemma env_scaled_to_zero_resolver_empty : resolver_empty env_scaled_to_zero.
Proof. intros t host. by eexists _, _. Defined.

Lemma predict_on_empty_pool_witness :
  ∃ st0 st',
    _setup_connections env_scaled_to_zero state3 = (Return tt, st0) ∧
    rr_entries (_pool (self st0)) = [] ∧
    (∀ is_async,
       get_round_robin_stub is_async st0 = (Raise (EmptyPool "no connections"), st0)) ∧
    predict env_scaled_to_zero example_data (Some ["c"]) "test_model" (Some "test")
      state3
    = (Raise (RetryFailed "Failed after 3 tries"
                [EmptyPool "no connections"; EmptyPool "no connections";
                 EmptyPool "no connections"]), st') ∧
    rr_entries (_pool (self st')) = [] ∧
    calls (world st')
    = [CallResolve "localhost"; CallResolve "localhost"; CallResolve "localhost";
       CallResolve "localhost"; CallResolve "localhost"].
Proof.
  apply (predict_on_empty_pool env_scaled_to_zero example_data (Some ["c"])
           "test_model" (Some "test") state3).
  - exact state3_wf.
  - exact env_scaled_to_zero_resolver_empty.
Defined.

(** ** Fatal errors *)

Section Outcome.
Context (env : Env).

(** An attempt that raises anything but [EmptyPool] has made exactly one
    call to the backend and has logged nothing. *)
Lemma attempt_backend_error request st e st1 :
  attempt env request st = (Raise e, st1) →
  (∀ msg, e ≠ EmptyPool msg) →
  log (world st1) = log (world st) ∧
  ∃ stub, calls (world st1) = (calls (world st) ++ [CallPredict stub request])%list.
Proof.
  rewrite attempt_eq. intros Hatt Hne.
  destruct (rr_next (_pool (self st))) as [[x p']|].
  - simpl in Hatt.
    destruct (sync_Predict env _ _ request); simplify_eq. simpl. eauto.
  - simplify_eq. by destruct (Hne "no connections").
Qed.

Lemma async_attempt_backend_error request st e st1 :
  async_attempt env request st = (Raise e, st1) →
  (∀ msg, e ≠ EmptyPool msg) →
  log (world st1) = log (world st) ∧
  ∃ stub,
    calls (world st1) = (calls (world st) ++ [CallAsyncPredict stub request])%list.
Proof.
  rewrite async_attempt_eq. intros Hatt Hne.
  destruct (rr_next (_pool (self st))) as [[x p']|].
  - simpl in Hatt.
    destruct (async_Predict env _ _ request); simplify_eq. simpl. eauto.
  - simplify_eq. by destruct (Hne "no connections").
Qed.

(** The outcome of [predict] when [j] attempts fail and are recovered from
    and the next one, within the budget, makes the loop raise [e] at once. *)
Lemma predict_stops_after data output_names model_name model_signature_name
    st st0 j es st1 e st2 :
  let request := _predict_request data model_name output_names model_signature_name in
  (j < Z.to_nat (n_trys (self st0)))%nat →
  _setup_connections env st = (Return tt, st0) →
  failed_attempts env (attempt env request) (retryable env) j st0 es st1 →
  (∀ k errors, predict_loop env request (S k) errors st1 = (Raise e, st2)) →
  predict env data output_names model_name model_signature_name st = (Raise e, st2).
Proof.
  intros request Hj Hset Hrun Hstop.
  assert (Z.to_nat (n_trys (self st0)) = j + S (Z.to_nat (n_trys (self st0)) - S j))%nat
    as Hn by lia.
  rewrite predict_eq, Hset. fold request. rewrite Hn.
  rewrite (predict_loop_failed_attempts env request j _ [] st0 es st1 Hrun).
  by rewrite Hstop.
Qed.

Lemma async_predict_stops_after data output_names model_name model_signature_name
    st st0 j es st1 e st2 :
  let request := _predict_request data model_name output_names model_signature_name in
  (j < Z.to_nat (n_trys (self st0)))%nat →
  _setup_connections env st = (Return tt, st0) →
  failed_attempts env (async_attempt env request) async_retryable j st0 es st1 →
  (∀ k errors, async_predict_loop env request (S k) errors st1 = (Raise e, st2)) →
  async_predict env data output_names model_name model_signature_name st
  = (Raise e, st2).
Proof.
  intros request Hj Hset Hrun Hstop.
  assert (Z.to_nat (n_trys (self st0)) = j + S (Z.to_nat (n_trys (self st0)) - S j))%nat
    as Hn by lia.
  rewrite async_predict_eq, Hset. fold request. rewrite Hn.
  rewrite (async_predict_loop_failed_attempts env request j _ [] st0 es st1 Hrun).
  by rewrite Hstop.
Qed.

End Outcome.

(** C4: in a call of [predict] or [async_predict], whichever attempt within
    the budget it is that fails with NOT_FOUND and the substring in its text
    (the attempts before it having failed and been recovered from), the call
    raises that very error, unwrapped, and ends in the state in which that
    attempt left it: since the attempt began there has been one call to the
    backend and nothing else, no log record, no reconciliation, no further
    attempt. *)
Theorem model_not_found_aborts (env : Env) data output_names model_name
    model_signature_name (st st0 : State) (j : nat) (text : string) :
  let request := _predict_request data model_name output_names model_signature_name in
  str_contains "Model" text = true →
  (j < Z.to_nat (n_trys (self st0)))%nat →
  _setup_connections env st = (Return tt, st0) →
  (∀ es st1 st2,
     failed_attempts env (attempt env request) (retryable env) j st0 es st1 →
     attempt env request st1 = (Raise (RpcError NOT_FOUND text), st2) →
     predict env data output_names model_name model_signature_name st
     = (Raise (RpcError NOT_FOUND text), st2) ∧
     log (world st2) = log (world st1) ∧
     ∃ stub, calls (world st2) = (calls (world st1) ++ [CallPredict stub request])%list) ∧
  (∀ es st1 st2,
     failed_attempts env (async_attempt env request) async_retryable j st0 es st1 →
     async_attempt env request st1 = (Raise (GRPCError NOT_FOUND (Some text)), st2) →
     async_predict env data output_names model_name model_signature_name st
     = (Raise (GRPCError NOT_FOUND (Some text)), st2) ∧
     log (world st2) = log (world st1) ∧
     ∃ stub,
       calls (world st2) = (calls (world st1) ++ [CallAsyncPredict stub request])%list).
Proof.
  intros request Htext Hj Hset. split; intros es st1 st2 Hrun Hatt.
  - split; [|by eapply attempt_backend_error].
    eapply predict_stops_after; [done..|].
    intros k errors. by apply predict_loop_fatal.
  - split; [|by eapply async_attempt_backend_error].
    eapply async_predict_stops_after; [done..|].
    intros k errors. by apply async_predict_loop_fatal.
Qed.

Lemma model_not_found_aborts_witness :
  ∃ st1 st2 st1' st2',
    (predict (env_no_model 3) example_data (Some ["c"]) "test_model" (Some "test")
       state3
     = (Raise (RpcError NOT_FOUND "Model test_model not found"), st2) ∧
     log (world st2) = log (world st1) ∧
     ∃ stub,
       calls (world st2) = (calls (world st1) ++ [CallPredict stub example_request])%list) ∧
    (async_predict (env_no_model 3) example_data (Some ["c"]) "test_model"
       (Some "test") state3
     = (Raise (GRPCError NOT_FOUND (Some "Model test_model not found")), st2') ∧
     log (world st2') = log (world st1') ∧
     ∃ stub,
       calls (world st2')
       = (calls (world st1') ++ [CallAsyncPredict stub example_request])%list).
Proof.
  destruct (model_not_found_aborts (env_no_model 3) example_data (Some ["c"])
              "test_model" (Some "test") state3
              (_setup_connections (env_no_model 3) state3).2 1
              "Model test_model not found")
    as [Hsync Hasync]; [reflexivity|vm_compute; lia|reflexivity|].
  eexists _, _, _, _. split.
  - eapply Hsync.
    + eapply failed_next; [by vm_compute|done|by vm_compute|apply failed_none].
    + by vm_compute.
  - eapply Hasync.
    + eapply failed_next; [by vm_compute|done|by vm_compute|apply failed_none].
    + by vm_compute.
Defined.

(** C10: in a call of [predict] or [async_predict], when one or more attempts
    have failed and their errors [es] have been recorded, and the next
    attempt, still within the budget, fails with the fatal error, the call
    raises the fatal error alone: the outcome is not a [RetryFailed] and
    carries none of the recorded errors. *)
Theorem fatal_error_discards_recorded_errors (env : Env) data output_names
    model_name model_signature_name (st st0 : State) (j : nat) (text : string) :
  let request := _predict_request data model_name output_names model_signature_name in
  str_contains "Model" text = true →
  (0 < j < Z.to_nat (n_trys (self st0)))%nat →
  _setup_connections env st = (Return tt, st0) →
  (∀ es st1 st2,
     failed_attempts env (attempt env request) (retryable env) j st0 es st1 →
     attempt env request st1 = (Raise (RpcError NOT_FOUND text), st2) →
     es ≠ [] ∧
     predict env data output_names model_name model_signature_name st
     = (Raise (RpcError NOT_FOUND text), st2)) ∧
  (∀ es st1 st2,
     failed_attempts env (async_attempt env request) async_retryable j st0 es st1 →
     async_attempt env request st1 = (Raise (GRPCError NOT_FOUND (Some text)), st2) →
     es ≠ [] ∧
     async_predict env data output_names model_name model_signature_name st
     = (Raise (GRPCError NOT_FOUND (Some text)), st2)).
Proof.
  intros request Htext [Hj0 Hj] Hset. split; intros es st1 st2 Hrun Hatt.
  - split.
    + apply failed_attempts_length in Hrun. intros ->. simpl in Hrun. lia.
    + eapply predict_stops_after; [done..|].
      intros k errors. by apply predict_loop_fatal.
  - split.
    + apply failed_attempts_length in Hrun. intros ->. simpl in Hrun. lia.
    + eapply async_predict_stops_after; [done..|].
      intros k errors. by apply async_predict_loop_fatal.
Qed.

Lemma fatal_error_discards_recorded_errors_witness :
  ∃ st2 st2',
    ([RpcError UNAVAILABLE "failed to connect to all addresses"] ≠ [] ∧
     predict (env_no_model 3) example_data (Some ["c"]) "test_model" (Some "test")
       state3
     = (Raise (RpcError NOT_FOUND "Model test_model not found"), st2)) ∧
    ([GRPCError UNAVAILABLE None] ≠ [] ∧
     async_predict (env_no_model 3) example_data (Some ["c"]) "test_model"
       (Some "test") state3
     = (Raise (GRPCError NOT_FOUND (Some "Model test_model not found")), st2')).
Proof.
  destruct (fatal_error_discards_recorded_errors (env_no_model 3) example_data
              (Some ["c"]) "test_model" (Some "test") state3
              (_setup_connections (env_no_model 3) state3).2 1
              "Model test_model not found")
    as [Hsync Hasync]; [reflexivity|vm_compute; lia|reflexivity|].
  eexists _, _. split.
  - eapply Hsync.
    + eapply failed_next; [by vm_compute|done|by vm_compute|apply failed_none].
    + by vm_compute.
  - eapply Hasync.
    + eapply failed_next; [by vm_compute|done|by vm_compute|apply failed_none].
    + by vm_compute.
Defined.

(** ** Cancellation *)

(** C8: in a call of [async_predict], when [j] attempts have failed and been
    recovered from and the next one, still within the budget, is cancelled
    while it awaits the backend, the call raises [CancelledError] itself and
    ends in the state in which the cancelled attempt left it: the
    cancellation is not retried on, not logged and not recorded, and no
    reconciliation or further attempt follows. *)
Theorem cancellation_propagates (env : Env) data output_names model_name
    model_signature_name (st st0 st1 st2 : State) (j : nat) (es : list Exn) :
  let request := _predict_request data model_name output_names model_signature_name in
  (j < Z.to_nat (n_trys (self st0)))%nat →
  _setup_connections env st = (Return tt, st0) →
  failed_attempts env (async_attempt env request) async_retryable j st0 es st1 →
  async_attempt env request st1 = (Raise CancelledError, st2) →
  async_predict env data output_names model_name model_signature_name st
  = (Raise CancelledError, st2) ∧
  log (world st2) = log (world st1) ∧
  ∃ stub,
    calls (world st2) = (calls (world st1) ++ [CallAsyncPredict stub request])%list.
Proof.
  intros request Hj Hset Hrun Hatt. split.
  - eapply async_predict_stops_after; [done..|].
    intros k errors. by apply async_predict_loop_cancelled.
  - by eapply async_attempt_backend_error.
Qed.

Lemma cancellation_propagates_witness :
  ∃ st1 st2,
    async_predict (env_cancelled 3) example_data (Some ["c"]) "test_model"
      (Some "test") state3
    = (Raise CancelledError, st2) ∧
    log (world st2) = log (world st1) ∧
    ∃ stub,
      calls (world st2)
      = (calls (world st1) ++ [CallAsyncPredict stub example_request])%list.
Proof.
  eexists _, _.
  eapply (cancellation_propagates (env_cancelled 3) example_data (Some ["c"])
            "test_model" (Some "test") state3
            (_setup_connections (env_cancelled 3) state3).2 _ _ 1
            [GRPCError UNAVAILABLE None]).
  - vm_compute. lia.
  - reflexivity.
  - eapply failed_next; [by vm_compute|done|by vm_compute|apply failed_none].
  - by vm_compute.
Defined.

(** ** NOT_FOUND without the substring *)

(** C9 at a failing input: the awaitable backend answers NOT_FOUND with no
    message at all.  [async_predict] raises [TypeError] at its first attempt:
    nothing is logged, no reconciliation follows and the two attempts left
    in the budget are not made.  The same status with the text
    [Servable not found for request] is retried on until the budget is
    spent, each time with a log record and a reconciliation. *)
Theorem not_found_without_message_is_not_retried :
  let e := GRPCError NOT_FOUND (Some "Servable not found for request") in
  (∃ st',
     async_predict (env_not_found_bare 0) example_data (Some ["c"]) "test_model"
       (Some "test") state3
     = (Raise (TypeError "argument of type 'NoneType' is not iterable"), st') ∧
     log (world st') = [] ∧
     calls (world st')
     = [CallResolve "localhost"; CallResolve "localhost";
        CallAsyncPredict (async_stub (example_conn "5.6.7.8" 2)) example_request]) ∧
  (∃ st',
     async_predict (env_no_servable 0) example_data (Some ["c"]) "test_model"
       (Some "test") state3
     = (Raise (RetryFailed "Failed after 3 tries" [e; e; e]), st') ∧
     log (world st') = [LogException e; LogException e; LogException e] ∧
     count_calls is_backend_call st' = 3%nat ∧
     count_calls is_resolver_call st' = 5%nat).
Proof.
  intros e. split; eexists; (split; [by vm_compute|]); by vm_compute.
Qed.

(** ** [list_models] *)

(** [list_models] never queries the resolver: it records at most its own
    call and leaves the membership of the pool as it found it. *)
Lemma list_models_calls (env : Env) st r st' :
  list_models env st = (r, st') →
  rr_entries (_pool (self st')) = rr_entries (_pool (self st)) ∧
  (calls (world st') = calls (world st) ∨
   ∃ c, calls (world st') = (calls (world st) ++ [CallListModels c])%list).
Proof.
  unfold list_models, mbind, M_bind. rewrite pool_next_eq.
  destruct (rr_next (_pool (self st))) as [[[a conn] p']|] eqn:E.
  - apply rr_next_Some in E as [_ ->]. munfold. simpl.
    destruct (ListModels env _ _); intros [= _ <-]; simpl; eauto.
  - intros [= _ <-]. eauto.
Qed.

(** C6 at a failing input: a client whose pool is empty, while the resolver
    now knows an address whose backend answers.  [list_models] raises
    [EmptyPool] and leaves the state untouched, the resolver is not asked;
    [predict], in the same state, asks it first and succeeds. *)
Theorem list_models_skips_reconciliation :
  list_models env_up state_empty = (Raise (EmptyPool "no connections"), state_empty) ∧
  (∃ st',
     predict env_up example_data (Some ["c"]) "test_model" (Some "test") state_empty
     = (Return {[ "c" := "5" ]}, st') ∧
     calls (world st')
     = [CallResolve "localhost"; CallResolve "localhost";
        CallPredict (sync_stub (example_conn "1.2.3.4" 0)) example_request]).
Proof.
  split; [reflexivity|]. eexists. split; by vm_compute.
Qed.

(** * Further properties *)

(** ** What a reconciliation leaves in the pool *)

Section Reconcile_entries.
Context (env : Env).

Lemma new_connection_same_config c c' a h :
  same_config c c' → new_connection c a h = new_connection c' a h.
Proof. intros (Hpem & Hopt & _ & Hport & _). unfold new_connection. by rewrite Hpem, Hopt, Hport. Qed.

Lemma new_entries_same_config c c' h l :
  same_config c c' → new_entries c h l = new_entries c' h l.
Proof.
  intros Hc. revert h. induction l as [|a l IH]; intros h; simpl; [done|].
  by rewrite IH, (new_connection_same_config c c' a h Hc).
Qed.

Lemma new_entries_keys c h l : (new_entries c h l).*1 = l.
Proof. revert h. induction l as [|a l IH]; intros h; simpl; [done|]. by rewrite IH. Qed.

Lemma new_entries_length c h l : length (new_entries c h l) = length l.
Proof. by rewrite <-(length_fmap fst), new_entries_keys. Qed.

Lemma filter_all {A} (P : A → Prop) `{∀ x, Decision (P x)} (l : list A) :
  (∀ x, x ∈ l → P x) → filter P l = l.
Proof.
  induction l as [|x l IH]; intros HP; [done|].
  rewrite filter_cons, decide_True by (apply HP; by left).
  rewrite IH; [done|]. intros y Hy. apply HP. by right.
Qed.

Lemma filter_ext_in {A} (P Q : A → Prop) `{∀ x, Decision (P x)}
    `{∀ x, Decision (Q x)} (l : list A) :
  (∀ x, x ∈ l → P x ↔ Q x) → filter P l = filter Q l.
Proof.
  induction l as [|x l IH]; intros HPQ; [done|].
  rewrite !filter_cons.
  rewrite IH by (intros y Hy; apply HPQ; by right).
  destruct (decide (P x)) as [HP|HP].
  - by rewrite decide_True by (apply HPQ; [by left|done]).
  - rewrite decide_False; [done|]. intros HQ. apply HP, HPQ; [by left|done].
Qed.

Lemma delete_unique_key (es : list (Address * Connection)) i a :
  NoDup es.*1 → es.*1 !! i = Some a →
  delete i es = filter (λ e, e.1 ≠ a) es.
Proof.
  revert i. induction es as [|[b conn] es IH]; intros i Hnd Hi; [done|].
  apply NoDup_cons in Hnd as [Hb Hnd]. rewrite filter_cons. simpl in *.
  destruct i as [|i]; simpl in *.
  - injection Hi as ->. rewrite decide_False by (by intros []).
    symmetry. apply filter_all. intros [c conn'] Hin Heq. simpl in Heq. subst c.
    apply Hb, list_elem_of_fmap. by exists (a, conn').
  - rewrite decide_True.
    + by rewrite (IH i Hnd Hi).
    + intros ->. apply Hb. by eapply list_elem_of_lookup_2.
Qed.

(** Removing an address whose key is unique filters its entry out. *)
Lemma rr_remove_entries a p :
  NoDup (rr_keys p) →
  rr_entries (rr_remove a p) = filter (λ e, e.1 ≠ a) (rr_entries p).
Proof.
  intros Hnd. unfold rr_remove.
  destruct (rr_index a p) as [i|] eqn:E; simpl.
  - apply rr_index_Some in E. by apply delete_unique_key.
  - apply rr_index_None in E. symmetry. apply filter_all.
    intros [b conn] Hin Heq. simpl in Heq. subst b.
    apply E, list_elem_of_fmap. by exists (a, conn).
Qed.

Lemma foldl_remove_entries l p :
  rr_wf p →
  rr_entries (foldl (λ p a, rr_remove a p) p l)
  = filter (λ e, e.1 ∉ l) (rr_entries p).
Proof.
  revert p. induction l as [|a l IH]; intros p Hwf; simpl.
  - symmetry. apply filter_all. intros e _. apply not_elem_of_nil.
  - rewrite (IH _ (rr_remove_wf a p Hwf)).
    rewrite rr_remove_entries by apply Hwf.
    rewrite list_filter_filter. apply filter_ext_in.
    intros e _. rewrite not_elem_of_cons. tauto.
Qed.

(** One turn of the second loop, in full. *)
Lemma connect_eq a st :
  a ∉ rr_keys (_pool (self st)) →
  ∃ st', connect a st = (Return tt, st') ∧
    rr_entries (_pool (self st'))
    = (rr_entries (_pool (self st))
       ++ [(a, new_connection (self st) a (next_handle (world st)))])%list ∧
    rr_cursor (_pool (self st')) = rr_cursor (_pool (self st)) ∧
    same_config (self st) (self st') ∧
    calls (world st') = calls (world st) ∧
    log (world st') = log (world st) ∧
    next_handle (world st') = S (S (next_handle (world st))) ∧
    live_handles (world st')
    = {[next_handle (world st); S (next_handle (world st))]} ∪ live_handles (world st).
Proof.
  intros Ha. unfold connect, Connection_init, pool_setitem, open_handle.
  munfold. simpl. rewrite (rr_upsert_fresh _ _ _ Ha). simpl.
  eexists. split; [done|]. simpl. split_and!; try done.
  apply set_eq. intros x. rewrite !elem_of_union, !elem_of_singleton. tauto.
Qed.

Lemma for_each_connect_eq l st :
  NoDup l → (∀ x, x ∈ l → x ∉ rr_keys (_pool (self st))) →
  ∃ st', for_each l connect st = (Return tt, st') ∧
    rr_entries (_pool (self st'))
    = (rr_entries (_pool (self st))
       ++ new_entries (self st) (next_handle (world st)) l)%list ∧
    rr_cursor (_pool (self st')) = rr_cursor (_pool (self st)) ∧
    same_config (self st) (self st') ∧
    calls (world st') = calls (world st) ∧
    log (world st') = log (world st) ∧
    next_handle (world st') = (next_handle (world st) + 2 * length l)%nat ∧
    live_handles (world st')
    = list_to_set (seq (next_handle (world st)) (2 * length l)) ∪ live_handles (world st).
Proof.
  revert st. induction l as [|a l IH]; intros st Hnd Hfresh; simpl.
  - exists st. rewrite app_nil_r. split_and!; try done.
    by rewrite (left_id_L ∅ (∪)).
  - apply NoDup_cons in Hnd as [Hal Hnd].
    destruct (connect_eq a st) as (st1 & E1 & He1 & Hcur1 & Hc1 & Hcalls1 & Hl1 & Hn1 & Hh1).
    { apply Hfresh. by left. }
    destruct (IH st1 Hnd) as (st2 & E2 & He2 & Hcur2 & Hc2 & Hcalls2 & Hl2 & Hn2 & Hh2).
    { intros x Hx. unfold rr_keys. rewrite He1, fmap_app, elem_of_app. simpl.
      rewrite list_elem_of_singleton. intros [Hin| ->]; [|done].
      apply (Hfresh x); [by right|done]. }
    exists st2. unfold mbind, M_bind. rewrite E1, E2.
    split_and!; try congruence.
    + rewrite He2, He1, <-app_assoc. simpl. rewrite Hn1.
      by rewrite (new_entries_same_config _ _ _ _ Hc1).
    + by etrans.
    + rewrite Hn2, Hn1. lia.
    + rewrite Hh2, Hh1, Hn1.
      replace (length l + S (length l + 0))%nat with (S (2 * length l)) by lia.
      simpl. apply set_eq. intros x. rewrite !elem_of_union, !elem_of_singleton. tauto.
Qed.

Lemma set_iter_empty : set_iter env ∅ = [].
Proof.
  apply Permutation_nil_r. rewrite set_iter_perm. by rewrite elements_empty.
Qed.

(** The pool and the world after a reconciliation that the resolver
    answered: the entries of the addresses that are still resolved stay, in
    their order and with their connections; one entry per new address is
    appended, built on two new handles. *)
Lemma setup_connections_entries st hn al addrs :
  rr_wf (_pool (self st)) →
  gethostbyname_ex env (tick (world st)) (_host (self st)) = inr (hn, al, addrs) →
  let news := set_iter env (list_to_set addrs ∖ list_to_set (rr_keys (_pool (self st)))) in
  ∃ st', _setup_connections env st = (Return tt, st') ∧
    rr_entries (_pool (self st'))
    = (filter (λ e, e.1 ∈ addrs) (rr_entries (_pool (self st)))
       ++ new_entries (self st) (next_handle (world st)) news)%list ∧
    rr_wf (_pool (self st')) ∧
    same_config (self st) (self st') ∧
    calls (world st') = (calls (world st) ++ [CallResolve (_host (self st))])%list ∧
    log (world st') = log (world st) ∧
    next_handle (world st') = (next_handle (world st) + 2 * length news)%nat ∧
    live_handles (world st')
    = list_to_set (seq (next_handle (world st)) (2 * length news))
      ∪ live_handles (world st).
Proof.
  intros Hwf Hres news.
  unfold _setup_connections, mbind, M_bind, gets, compose at 1.
  rewrite socket_gethostbyname_ex_eq, Hres. simpl.
  set (st0 := with_call (CallResolve (_host (self st))) st).
  fold news.
  set (orig := list_to_set (rr_keys (_pool (self st))) : gset Address) in *.
  set (cur := list_to_set addrs : gset Address) in *.
  assert (∀ a conn, (a, conn) ∈ rr_entries (_pool (self st)) → a ∈ orig) as Horig.
  { intros a conn Hin. subst orig. rewrite elem_of_list_to_set.
    apply list_elem_of_fmap. by exists (a, conn). }
  assert (∀ a, a ∈ addrs ↔ a ∈ cur) as Hcur.
  { intros a. subst cur. by rewrite elem_of_list_to_set. }
  destruct (decide (orig = cur)) as [Heq|Hne].
  { exists st0. subst news. rewrite Heq, difference_diag_L, set_iter_empty. simpl.
    split_and!; try done; [|by rewrite (left_id_L ∅ (∪))].
    rewrite app_nil_r. symmetry. apply filter_all.
    intros [a conn] Hin. simpl. rewrite Hcur, <-Heq. by eapply Horig. }
  unfold mbind, M_bind. rewrite for_each_delitem.
  set (p1 := foldl _ _ _).
  destruct (foldl_remove_wf (set_iter env (orig ∖ cur)) (_pool (self st0)) Hwf)
    as [Hwf1 Hk1]. fold p1 in Hwf1, Hk1.
  assert (∀ x, x ∈ news → x ∉ rr_keys (_pool (self (with_pool p1 st0)))) as Hfresh.
  { intros x. subst news. rewrite set_iter_perm, elem_of_elements, with_pool_pool, Hk1.
    rewrite set_iter_perm, elem_of_elements. subst orig cur st0.
    rewrite !elem_of_difference, !elem_of_list_to_set. simpl.
    intros [_ Hn] [Hk _]. by apply Hn. }
  assert (NoDup news) as Hnd.
  { subst news. rewrite set_iter_perm. apply NoDup_elements. }
  destruct (for_each_connect_eq news (with_pool p1 st0) Hnd Hfresh)
    as (st2 & E2 & He2 & _ & Hc2 & Hcalls2 & Hlog2 & Hn2 & Hh2).
  destruct (for_each_connect news (with_pool p1 st0) Hwf1 Hnd Hfresh)
    as (st2' & E2' & Hwf2 & _).
  rewrite E2 in E2'. injection E2' as <-.
  exists st2. rewrite E2. split_and!; try done.
  rewrite He2, with_pool_pool.
  rewrite (new_entries_same_config (self (with_pool p1 st0)) (self st)) by done.
  simpl. f_equal. subst p1. rewrite foldl_remove_entries by done.
  apply filter_ext_in. intros [a conn] Hin. simpl.
  rewrite set_iter_perm, elem_of_elements, elem_of_difference, Hcur.
  pose proof (Horig a conn Hin) as Ho. split.
  - intros Hn. destruct (decide (a ∈ cur)) as [|Hnc]; [done|]. by destruct Hn.
  - intros Hc [_ Hnc]. done.
Qed.

End Reconcile_entries.

(** ** The invariant of a client and what its methods keep *)

Section Invariant.
Context (env : Env).

Lemma entries_handles_app es1 es2 :
  entries_handles (es1 ++ es2) = (entries_handles es1 ++ entries_handles es2)%list.
Proof. unfold entries_handles. by rewrite fmap_app, concat_app. Qed.

Lemma new_connection_handles c a h :
  connection_handles (new_connection c a h) = [h; S h].
Proof. unfold connection_handles, new_connection. simpl. by destruct (_pem c). Qed.

Lemma entries_handles_new c h l :
  entries_handles (new_entries c h l) = seq h (2 * length l).
Proof.
  revert h. induction l as [|a l IH]; intros h; [done|].
  change (entries_handles (new_entries c h (a :: l)))
    with (connection_handles (new_connection c a h)
          ++ entries_handles (new_entries c (S (S h)) l))%list.
  rewrite new_connection_handles, IH. simpl.
  by replace (length l + S (length l + 0))%nat with (S (2 * length l)) by lia.
Qed.

Lemma entries_handles_filter (P : Address * Connection → Prop)
    `{∀ e, Decision (P e)} es :
  (∀ h, h ∈ entries_handles (filter P es) → h ∈ entries_handles es) ∧
  (NoDup (entries_handles es) → NoDup (entries_handles (filter P es))).
Proof.
  induction es as [|e es [IHin IHnd]]; [done|].
  change (entries_handles (e :: es))
    with (connection_handles e.2 ++ entries_handles es)%list.
  rewrite filter_cons. destruct (decide (P e)).
  - change (entries_handles (e :: filter P es))
      with (connection_handles e.2 ++ entries_handles (filter P es))%list.
    split.
    + intros h. rewrite !elem_of_app. intros [?|?]; [by left|right; by apply IHin].
    + rewrite !NoDup_app. intros (Hnd1 & Hdisj & Hnd2). split_and!; [done| |by apply IHnd].
      intros h Hh Hin. apply (Hdisj h Hh). by apply IHin.
  - split.
    + intros h Hh. apply elem_of_app. right. by apply IHin.
    + rewrite NoDup_app. intros (_ & _ & Hnd2). by apply IHnd.
Qed.

Lemma same_config_with_pool p st : same_config (self st) (self (with_pool p st)).
Proof. done. Qed.

#[global] Instance extends_preorder : PreOrder extends.
Proof.
  split.
  - intros st. by split_and!.
  - intros st1 st2 st3 (Hc1 & Hcalls1 & Hl1 & Hh1 & Hn1) (Hc2 & Hcalls2 & Hl2 & Hh2 & Hn2).
    split_and!; [by etrans|by etrans|by etrans|by etrans|lia].
Qed.

(** Moving the cursor keeps the invariant. *)
Lemma pool_ok_rr_next st e p' :
  pool_ok st → rr_next (_pool (self st)) = Some (e, p') →
  pool_ok (with_pool p' st) ∧ extends st (with_pool p' st).
Proof.
  intros (Hwf & Hbuilt & Hnd & Hlive) Hnext.
  pose proof (rr_next_wf _ _ _ Hwf Hnext) as Hwf'.
  apply rr_next_Some in Hnext as [_ ->]. split; [|done].
  split_and!; done.
Qed.

Lemma pool_ok_with_call c st : pool_ok st → pool_ok (with_call c st) ∧ extends st (with_call c st).
Proof.
  intros Hok. split; [done|]. split_and!; try done. by apply prefix_app_r.
Qed.

Lemma pool_ok_with_log r st : pool_ok st → pool_ok (with_log r st) ∧ extends st (with_log r st).
Proof.
  intros Hok. split; [done|]. split_and!; try done. by apply prefix_app_r.
Qed.

(** A reconciliation keeps the invariant, whether the resolver answers or
    fails. *)
Lemma preserves_setup_connections : preserves (_setup_connections env).
Proof.
  intros st r st' Hok E.
  destruct (gethostbyname_ex env (tick (world st)) (_host (self st)))
    as [e|[[hn al] addrs]] eqn:Hres.
  { rewrite (setup_connections_resolver_error env st e Hres) in E.
    injection E as <- <-. by apply pool_ok_with_call. }
  destruct Hok as (Hwf & Hbuilt & Hnd & Hlive).
  destruct (setup_connections_entries env st hn al addrs Hwf Hres)
    as (st2 & E2 & He & Hwf2 & Hc & Hcalls & Hlog & Hnext & Hh).
  rewrite E2 in E. injection E as <- <-.
  set (news := set_iter env _) in *.
  assert (∀ h, h ∈ pool_handles (_pool (self st2)) →
               h ∈ pool_handles (_pool (self st)) ∨
               (next_handle (world st) ≤ h < next_handle (world st) + 2 * length news)%nat)
    as Hsplit.
  { intros h. unfold pool_handles. rewrite He, entries_handles_app, elem_of_app.
    rewrite entries_handles_new, elem_of_seq.
    intros [Hin|Hin]; [left|by right].
    by apply (entries_handles_filter (λ e, e.1 ∈ addrs)). }
  split.
  - split_and!; [done| | |].
    + intros a conn. rewrite He, elem_of_app. intros [Hin|Hin].
      * apply list_elem_of_filter in Hin as [_ Hin].
        destruct (Hbuilt a conn Hin) as [h ->]. exists h.
        by apply new_connection_same_config.
      * clear -Hin Hc. revert Hin. generalize (next_handle (world st)).
        induction news as [|b l IH]; intros h Hin; [by apply elem_of_nil in Hin|].
        simpl in Hin. apply elem_of_cons in Hin as [[= -> ->]|Hin].
        -- exists h. by apply new_connection_same_config.
        -- by apply (IH (S (S h))).
    + unfold pool_handles. rewrite He, entries_handles_app, entries_handles_new.
      apply NoDup_app. split_and!.
      * by apply (entries_handles_filter (λ e, e.1 ∈ addrs)).
      * intros h Hin%(proj1 (entries_handles_filter (λ e, e.1 ∈ addrs) _)).
        rewrite elem_of_seq. destruct (Hlive h Hin). lia.
      * apply NoDup_seq.
    + intros h [Hold|Hnew]%Hsplit; rewrite Hnext, Hh, elem_of_union, elem_of_list_to_set,
        elem_of_seq.
      * destruct (Hlive h Hold). split; [lia|by right].
      * split; [lia|by left].
  - split_and!; [done| | | |lia].
    + rewrite Hcalls. by apply prefix_app_r.
    + by rewrite Hlog.
    + rewrite Hh. apply union_subseteq_r.
Qed.

Lemma preserves_ret {A} (a : A) : preserves (mret a).
Proof. intros st r st' Hok [= <- <-]. done. Qed.

Lemma preserves_raise {A} e : preserves (raise (A:=A) e).
Proof. intros st r st' Hok [= <- <-]. done. Qed.

Lemma preserves_gets {A} (f : State → A) : preserves (gets f).
Proof. intros st r st' Hok [= <- <-]. done. Qed.

Lemma preserves_bind {A B} (m : M A) (f : A → M B) :
  preserves m → (∀ a, preserves (f a)) → preserves (m ≫= f).
Proof.
  intros Hm Hf st r st' Hok. unfold mbind, M_bind.
  destruct (m st) as [[a|e] st1] eqn:E.
  - destruct (Hm _ _ _ Hok E) as [Hok1 Hext1]. intros E2.
    destruct (Hf a _ _ _ Hok1 E2) as [Hok2 Hext2]. split; [done|by etrans].
  - intros [= <- <-]. by apply (Hm _ _ _ Hok E).
Qed.

Lemma preserves_try_except_else {A B} (m : M A) (h : Exn → M B) (k : A → M B) :
  preserves m → (∀ e, preserves (h e)) → (∀ a, preserves (k a)) →
  preserves (try_except_else m h k).
Proof.
  intros Hm Hh Hk st r st' Hok. unfold try_except_else.
  destruct (m st) as [[a|e] st1] eqn:E; intros E2;
    destruct (Hm _ _ _ Hok E) as [Hok1 Hext1].
  - destruct (Hk a _ _ _ Hok1 E2). split; [done|by etrans].
  - destruct (Hh e _ _ _ Hok1 E2). split; [done|by etrans].
Qed.

Lemma preserves_lift_answer {A} (r : Exn + A) : preserves (lift_answer r).
Proof. destruct r; [apply preserves_raise|apply preserves_ret]. Qed.

Lemma preserves_record_call c : preserves (record_call c).
Proof. intros st r st' Hok [= <- <-]. by apply pool_ok_with_call. Qed.

Lemma preserves_emit_log r : preserves (emit_log r).
Proof. intros st x st' Hok [= <- <-]. by apply pool_ok_with_log. Qed.

Lemma preserves_pool_next : preserves pool_next.
Proof.
  intros st r st' Hok. rewrite pool_next_eq.
  destruct (rr_next (_pool (self st))) as [[e p']|] eqn:E; intros [= <- <-].
  - by eapply pool_ok_rr_next.
  - done.
Qed.

Lemma preserves_get_round_robin_stub is_async :
  preserves (get_round_robin_stub is_async).
Proof.
  unfold get_round_robin_stub. apply preserves_bind; [apply preserves_pool_next|].
  intros [[a conn]|]; [|apply preserves_raise].
  destruct is_async; apply preserves_ret.
Qed.

Lemma preserves_attempt request : preserves (attempt env request).
Proof.
  unfold attempt, Predict.
  apply preserves_bind; [apply preserves_get_round_robin_stub|]. intros stub.
  apply preserves_bind; [apply preserves_gets|]. intros t.
  apply preserves_bind; [apply preserves_record_call|]. intros _.
  apply preserves_lift_answer.
Qed.

Lemma preserves_async_attempt request : preserves (async_attempt env request).
Proof.
  unfold async_attempt, await_Predict.
  apply preserves_bind; [apply preserves_get_round_robin_stub|]. intros stub.
  apply preserves_bind; [apply preserves_gets|]. intros t.
  apply preserves_bind; [apply preserves_record_call|]. intros _.
  apply preserves_lift_answer.
Qed.

Lemma preserves_raise_RetryFailed {A} errors :
  preserves (raise_RetryFailed (A:=A) errors).
Proof.
  unfold raise_RetryFailed. apply preserves_bind; [apply preserves_gets|].
  intros n. apply preserves_raise.
Qed.

Lemma preserves_predict_loop request remaining errors :
  preserves (predict_loop env request remaining errors).
Proof.
  revert errors. induction remaining as [|k IH]; intros errors;
    [apply preserves_raise_RetryFailed|].
  simpl. apply preserves_try_except_else;
    [apply preserves_attempt| |intros r; apply preserves_ret].
  assert (∀ e, preserves (logger_exception e;; _setup_connections env;;
                          predict_loop env request k (errors ++ [e]))) as Hretry.
  { intros e. apply preserves_bind; [apply preserves_emit_log|]. intros _.
    apply preserves_bind; [apply preserves_setup_connections|]. intros _. apply IH. }
  intros e. destruct e; try apply Hretry.
  - apply preserves_bind; [apply preserves_emit_log|]. intros _.
    apply preserves_bind; [apply preserves_setup_connections|]. intros _. apply IH.
  - destruct (_ && _); [apply preserves_raise|apply Hretry].
  - simpl. destruct (cancelled_is_Exception env); [apply Hretry|apply preserves_raise].
Qed.

Lemma preserves_async_predict_loop request remaining errors :
  preserves (async_predict_loop env request remaining errors).
Proof.
  revert errors. induction remaining as [|k IH]; intros errors;
    [apply preserves_raise_RetryFailed|].
  simpl. apply preserves_try_except_else;
    [apply preserves_async_attempt| |intros r; apply preserves_ret].
  assert (∀ e, preserves (logger_exception e;; _setup_connections env;;
                          async_predict_loop env request k (errors ++ [e]))) as Hretry.
  { intros e. apply preserves_bind; [apply preserves_emit_log|]. intros _.
    apply preserves_bind; [apply preserves_setup_connections|]. intros _. apply IH. }
  intros e. destruct e; try apply Hretry.
  - apply preserves_bind; [apply preserves_emit_log|]. intros _.
    apply preserves_bind; [apply preserves_setup_connections|]. intros _. apply IH.
  - apply preserves_bind.
    + destruct (bool_decide _); [apply preserves_lift_answer|apply preserves_ret].
    + intros [|]; [apply preserves_raise|apply Hretry].
  - apply preserves_raise.
Qed.

Lemma preserves_predict data output_names model_name model_signature_name :
  preserves (predict env data output_names model_name model_signature_name).
Proof.
  unfold predict. apply preserves_bind; [apply preserves_setup_connections|].
  intros _. apply preserves_bind; [apply preserves_gets|]. intros n.
  apply preserves_bind; [apply preserves_predict_loop|]. intros r.
  apply preserves_ret.
Qed.

Lemma preserves_async_predict data output_names model_name model_signature_name :
  preserves (async_predict env data output_names model_name model_signature_name).
Proof.
  unfold async_predict. apply preserves_bind; [apply preserves_setup_connections|].
  intros _. apply preserves_bind; [apply preserves_gets|]. intros n.
  apply preserves_bind; [apply preserves_async_predict_loop|]. intros r.
  apply preserves_ret.
Qed.

Lemma preserves_list_models : preserves (list_models env).
Proof.
  unfold list_models. apply preserves_bind; [apply preserves_pool_next|].
  intros [[a conn]|]; [|apply preserves_raise].
  apply preserves_bind; [apply preserves_gets|]. intros t.
  apply preserves_bind; [apply preserves_record_call|]. intros _.
  apply preserves_lift_answer.
Qed.

End Invariant.

Lemma state3_pool_ok : pool_ok state3.
Proof.
  split_and!.
  - exact state3_wf.
  - intros a conn Hin.
    repeat (apply elem_of_cons in Hin as [[= -> ->]|Hin]);
      [by exists 0%nat|by exists 2%nat|by exists 4%nat|by apply elem_of_nil in Hin].
  - apply (bool_decide_unpack _). by vm_compute.
  - intros h Hin. cbv in Hin.
    repeat (apply elem_of_cons in Hin as [->|Hin]);
      try (by apply elem_of_nil in Hin);
      (split; [simpl; lia|apply (bool_decide_unpack _); by vm_compute]).
Qed.

(** ** The constructor *)

(** X1: when the name resolves, [Client(host, port, n_trys, pem,
    channel_options)] returns a client with these settings ([n_trys] 3 and no
    channel options when they are not given) whose pool holds one new
    connection per distinct resolved address, built for that address with the
    client's port, credentials and options, and the state satisfies the
    invariant of the pool; the resolver has been asked once. *)
Theorem Client_init_builds_pool (env : Env) host port n pem channel_options
    (w : World) hn al (addrs : list Address) :
  gethostbyname_ex env (tick w) host = inr (hn, al, addrs) →
  ∃ c w',
    Client_init env host port n pem channel_options w = (Return c, w') ∧
    (_host c = host ∧ _port c = port ∧ _pem c = pem ∧
     _channel_options c = default [] channel_options ∧ n_trys c = default 3%Z n) ∧
    rr_entries (_pool c)
    = new_entries c (next_handle w) (set_iter env (list_to_set addrs)) ∧
    list_to_set (rr_keys (_pool c)) =@{gset Address} list_to_set addrs ∧
    length (rr_entries (_pool c)) = size (list_to_set addrs : gset Address) ∧
    pool_ok {| self := c; world := w' |} ∧
    calls w' = (calls w ++ [CallResolve host])%list.
Proof.
  intros Hres. unfold Client_init.
  set (st := {| self := {| _pool := rr_empty |}; world := w |}).
  assert (pool_ok st) as Hok.
  { split_and!; [apply rr_empty_wf| |apply NoDup_nil_2|].
    - intros a conn Hin. by apply elem_of_nil in Hin.
    - intros h Hin. by apply elem_of_nil in Hin. }
  destruct (setup_connections_entries env st hn al addrs rr_empty_wf Hres)
    as (st' & E & He & Hwf & Hc & Hcalls & _).
  destruct (preserves_setup_connections env st _ _ Hok E) as [Hok' _].
  rewrite E. exists (self st'), (world st').
  assert (list_to_set addrs ∖ list_to_set (rr_keys (_pool (self st)))
          =@{gset Address} list_to_set addrs) as Hnews.
  { simpl. apply difference_empty_L. }
  rewrite Hnews in He. simpl in He.
  rewrite (new_entries_same_config _ _ _ _ Hc) in He.
  destruct Hc as (Hpem & Hopt & Hhost & Hport & Hn).
  split_and!; try done.
  - unfold rr_keys. rewrite He, new_entries_keys.
    rewrite set_iter_perm. apply list_to_set_elements_L.
  - rewrite He, new_entries_length. by rewrite set_iter_perm.
Qed.

Lemma Client_init_builds_pool_witness :
  ∃ c w',
    Client_init env_down "localhost" 9999 None None None
      {| calls := []; next_handle := 0; live_handles := ∅; log := [] |}
    = (Return c, w') ∧
    (_host c = "localhost" ∧ _port c = 9999%Z ∧ _pem c = None ∧
     _channel_options c = [] ∧ n_trys c = 3%Z) ∧
    rr_entries (_pool c)
    = new_entries c 0 (set_iter env_down (list_to_set ["5.6.7.8"; "7.7.7.7"])) ∧
    list_to_set (rr_keys (_pool c)) =@{gset Address} list_to_set ["5.6.7.8"; "7.7.7.7"] ∧
    length (rr_entries (_pool c))
    = size (list_to_set ["5.6.7.8"; "7.7.7.7"] : gset Address) ∧
    pool_ok {| self := c; world := w' |} ∧
    calls w' = [CallResolve "localhost"].
Proof.
  apply (Client_init_builds_pool env_down "localhost" 9999 None None None
           {| calls := []; next_handle := 0; live_handles := ∅; log := [] |}
           "localhost" []).
  reflexivity.
Defined.

(** X2: when the name does not resolve, the constructor, [predict] and
    [async_predict] raise the resolver's error as it is; the pool is
    untouched and the only outside call is the query. *)
Theorem resolver_error_propagates (env : Env) data output_names model_name
    model_signature_name (st : State) (e : Exn) host port n pem channel_options
    (w : World) :
  (gethostbyname_ex env (tick (world st)) (_host (self st)) = inl e →
   predict env data output_names model_name model_signature_name st
   = (Raise e, with_call (CallResolve (_host (self st))) st) ∧
   async_predict env data output_names model_name model_signature_name st
   = (Raise e, with_call (CallResolve (_host (self st))) st)) ∧
  (gethostbyname_ex env (tick w) host = inl e →
   Client_init env host port n pem channel_options w
   = (Raise e, {| calls := calls w ++ [CallResolve host];
                  next_handle := next_handle w;
                  live_handles := live_handles w; log := log w |})).
Proof.
  split; intros Hres.
  - rewrite predict_eq, async_predict_eq.
    by rewrite (setup_connections_resolver_error env st e Hres).
  - unfold Client_init.
    set (st0 := {| self := {| _pool := rr_empty |}; world := w |}).
    by rewrite (setup_connections_resolver_error env st0 e Hres).
Qed.

Lemma resolver_error_propagates_witness :
  let env := scripted_env (λ _ _, inl (OSError "Name or service not known"))
               backend_up backend_up in
  (predict env example_data (Some ["c"]) "test_model" (Some "test") state3
   = (Raise (OSError "Name or service not known"),
      with_call (CallResolve "localhost") state3) ∧
   async_predict env example_data (Some ["c"]) "test_model" (Some "test") state3
   = (Raise (OSError "Name or service not known"),
      with_call (CallResolve "localhost") state3)) ∧
  Client_init env "localhost" 9999 None None None
    {| calls := []; next_handle := 0; live_handles := ∅; log := [] |}
  = (Raise (OSError "Name or service not known"),
     {| calls := [CallResolve "localhost"]; next_handle := 0;
        live_handles := ∅; log := [] |}).
Proof.
  intros env.
  destruct (resolver_error_propagates env example_data (Some ["c"]) "test_model"
              (Some "test") state3 (OSError "Name or service not known")
              "localhost" 9999 None None None
              {| calls := []; next_handle := 0; live_handles := ∅; log := [] |})
    as [Hcall Hinit].
  split; [by apply Hcall|by apply Hinit].
Defined.

(** ** What every method keeps *)

(** X3: [predict], [async_predict] and [list_models], whatever the resolver
    and the backend do and whether they return or raise, keep the invariant
    of the client (unique keys, every entry holding the connection built for
    its key, all channels of the pool distinct and live) and only add to the
    world: the settings of the client are unchanged, earlier calls and log
    records stay, and no live handle is closed. *)
Theorem methods_keep_invariant (env : Env) data output_names model_name
    model_signature_name (st : State) :
  pool_ok st →
  let after_predict :=
    (predict env data output_names model_name model_signature_name st).2 in
  let after_async_predict :=
    (async_predict env data output_names model_name model_signature_name st).2 in
  let after_list_models := (list_models env st).2 in
  (pool_ok after_predict ∧ extends st after_predict) ∧
  (pool_ok after_async_predict ∧ extends st after_async_predict) ∧
  (pool_ok after_list_models ∧ extends st after_list_models).
Proof.
  intros Hok. split_and!.
  1,2: eapply preserves_predict; [done|apply surjective_pairing].
  1,2: eapply preserves_async_predict; [done|apply surjective_pairing].
  1,2: eapply preserves_list_models; [done|apply surjective_pairing].
Qed.

Lemma methods_keep_invariant_witness :
  let after_predict :=
    (predict env_down example_data (Some ["c"]) "test_model" (Some "test") state3).2 in
  let after_async_predict :=
    (async_predict env_down example_data (Some ["c"]) "test_model" (Some "test")
       state3).2 in
  let after_list_models := (list_models env_down state3).2 in
  (pool_ok after_predict ∧ extends state3 after_predict) ∧
  (pool_ok after_async_predict ∧ extends state3 after_async_predict) ∧
  (pool_ok after_list_models ∧ extends state3 after_list_models).
Proof.
  apply (methods_keep_invariant env_down example_data (Some ["c"]) "test_model"
           (Some "test") state3).
  exact state3_pool_ok.
Defined.

(** ** More on reconciliation *)

(** X4: a reconciliation that the resolver answers keeps the entries of the
    addresses that are still resolved, with the very connections they had and
    in the order they had, drops the others, and appends one new entry per
    address that was not in the pool; in particular an address that stays
    resolved is never reconnected. *)
Theorem reconcile_keeps_survivors (env : Env) (st : State) hn al addrs :
  rr_wf (_pool (self st)) →
  gethostbyname_ex env (tick (world st)) (_host (self st)) = inr (hn, al, addrs) →
  ∃ st',
    _setup_connections env st = (Return tt, st') ∧
    rr_entries (_pool (self st'))
    = (filter (λ e, e.1 ∈ addrs) (rr_entries (_pool (self st)))
       ++ new_entries (self st) (next_handle (world st))
            (set_iter env (list_to_set addrs
                           ∖ list_to_set (rr_keys (_pool (self st))))))%list ∧
    ∀ a conn,
      (a, conn) ∈ rr_entries (_pool (self st)) → a ∈ addrs →
      (a, conn) ∈ rr_entries (_pool (self st')).
Proof.
  intros Hwf Hres.
  destruct (setup_connections_entries env st hn al addrs Hwf Hres)
    as (st' & E & He & _).
  exists st'. split_and!; [done..|].
  intros a conn Hin Ha. rewrite He. apply elem_of_app. left.
  by apply list_elem_of_filter.
Qed.

Lemma reconcile_keeps_survivors_witness :
  ∃ st',
    _setup_connections env_down state3 = (Return tt, st') ∧
    rr_entries (_pool (self st'))
    = (filter (λ e, e.1 ∈ ["5.6.7.8"; "7.7.7.7"]) (rr_entries (_pool (self state3)))
       ++ new_entries (self state3) 6
            (set_iter env_down (list_to_set ["5.6.7.8"; "7.7.7.7"]
                                ∖ list_to_set (rr_keys (_pool (self state3))))))%list ∧
    ∀ a conn,
      (a, conn) ∈ rr_entries (_pool (self state3)) → a ∈ ["5.6.7.8"; "7.7.7.7"] →
      (a, conn) ∈ rr_entries (_pool (self st')).
Proof.
  apply (reconcile_keeps_survivors env_down state3 "localhost" []).
  - exact state3_wf.
  - reflexivity.
Defined.

(** X5: a reconciliation opens exactly two transport handles for each address
    that is new to the pool, the next unused ones, and none for the others:
    when every resolved address is already in the pool no handle is
    opened. *)
Theorem reconcile_opens_two_handles_per_new_address (env : Env) (st : State) hn al addrs :
  rr_wf (_pool (self st)) →
  gethostbyname_ex env (tick (world st)) (_host (self st)) = inr (hn, al, addrs) →
  let new_addrs : gset Address :=
    list_to_set addrs ∖ list_to_set (rr_keys (_pool (self st))) in
  ∃ st',
    _setup_connections env st = (Return tt, st') ∧
    next_handle (world st') = (next_handle (world st) + 2 * size new_addrs)%nat ∧
    live_handles (world st')
    = list_to_set (seq (next_handle (world st)) (2 * size new_addrs))
      ∪ live_handles (world st) ∧
    ((∀ a, a ∈ addrs → a ∈ rr_keys (_pool (self st))) →
     world st' = world (with_call (CallResolve (_host (self st))) st)).
Proof.
  intros Hwf Hres new_addrs.
  destruct (setup_connections_entries env st hn al addrs Hwf Hres)
    as (st' & E & _ & _ & _ & Hcalls & Hlog & Hn & Hh).
  fold new_addrs in Hn, Hh.
  assert (length (set_iter env new_addrs) = size new_addrs) as Hlen
    by (by rewrite set_iter_perm).
  rewrite Hlen in Hn, Hh.
  exists st'. split_and!; [done..|].
  intros Hsub.
  assert (new_addrs = ∅) as Hempty.
  { apply set_eq. intros a. subst new_addrs.
    rewrite elem_of_difference, !elem_of_list_to_set.
    split; [|by intros ?%not_elem_of_empty]. intros [Ha Hna]. destruct Hna. by apply Hsub. }
  rewrite Hempty, size_empty in Hn, Hh. simpl in Hn, Hh.
  rewrite (left_id_L ∅ (∪)) in Hh. rewrite Nat.add_0_r in Hn.
  destruct st' as [c' [calls' next' live' log']]. simpl in *. by subst.
Qed.

Lemma reconcile_opens_two_handles_per_new_address_witness :
  let new_addrs : gset Address :=
    list_to_set ["5.6.7.8"; "7.7.7.7"] ∖ list_to_set (rr_keys (_pool (self state3))) in
  ∃ st',
    _setup_connections env_down state3 = (Return tt, st') ∧
    next_handle (world st') = (6 + 2 * size new_addrs)%nat ∧
    live_handles (world st')
    = list_to_set (seq 6 (2 * size new_addrs)) ∪ live_handles (world state3) ∧
    ((∀ a, a ∈ ["5.6.7.8"; "7.7.7.7"] → a ∈ rr_keys (_pool (self state3))) →
     world st' = world (with_call (CallResolve "localhost") state3)).
Proof.
  apply (reconcile_opens_two_handles_per_new_address env_down state3 "localhost" []).
  - exact state3_wf.
  - reflexivity.
Defined.

(** ** More on the retry loops *)

Section Outcomes.
Context (env : Env).

Lemma predict_returns_after data output_names model_name model_signature_name
    st st0 j es st1 r st2 :
  let request := _predict_request data model_name output_names model_signature_name in
  (j < Z.to_nat (n_trys (self st0)))%nat →
  _setup_connections env st = (Return tt, st0) →
  failed_attempts env (attempt env request) (retryable env) j st0 es st1 →
  attempt env request st1 = (Return r, st2) →
  predict env data output_names model_name model_signature_name st
  = (Return (parse_predict_response r), st2).
Proof.
  intros request Hj Hset Hrun Hatt.
  assert (Z.to_nat (n_trys (self st0)) = j + S (Z.to_nat (n_trys (self st0)) - S j))%nat
    as Hn by lia.
  rewrite predict_eq, Hset. fold request. rewrite Hn.
  rewrite (predict_loop_failed_attempts env request j _ [] st0 es st1 Hrun).
  by rewrite (predict_loop_success env request _ _ st1 r st2 Hatt).
Qed.

Lemma async_predict_returns_after data output_names model_name model_signature_name
    st st0 j es st1 r st2 :
  let request := _predict_request data model_name output_names model_signature_name in
  (j < Z.to_nat (n_trys (self st0)))%nat →
  _setup_connections env st = (Return tt, st0) →
  failed_attempts env (async_attempt env request) async_retryable j st0 es st1 →
  async_attempt env request st1 = (Return r, st2) →
  async_predict env data output_names model_name model_signature_name st
  = (Return (parse_predict_response r), st2).
Proof.
  intros request Hj Hset Hrun Hatt.
  assert (Z.to_nat (n_trys (self st0)) = j + S (Z.to_nat (n_trys (self st0)) - S j))%nat
    as Hn by lia.
  rewrite async_predict_eq, Hset. fold request. rewrite Hn.
  rewrite (async_predict_loop_failed_attempts env request j _ [] st0 es st1 Hrun).
  by rewrite (async_predict_loop_success env request _ _ st1 r st2 Hatt).
Qed.

(** A reconciliation that returns had an answer from the resolver. *)
Lemma setup_connections_returned st st0 :
  rr_wf (_pool (self st)) →
  _setup_connections env st = (Return tt, st0) →
  rr_wf (_pool (self st0)) ∧ same_config (self st) (self st0) ∧
  log (world st0) = log (world st) ∧
  calls (world st0) = (calls (world st) ++ [CallResolve (_host (self st))])%list.
Proof.
  intros Hwf E.
  destruct (gethostbyname_ex env (tick (world st)) (_host (self st)))
    as [e|[[hn al] addrs]] eqn:Hres.
  - by rewrite (setup_connections_resolver_error env st e Hres) in E.
  - destruct (setup_connections_spec env st hn al addrs Hwf Hres)
      as (st' & E' & Hwf' & _ & Hc & Hcalls & Hlog & _).
    rewrite E in E'. injection E' as <-. done.
Qed.

(** The recovery from [e] when the resolver fails in it. *)
Lemma recover_resolver_error e st err :
  gethostbyname_ex env (tick (world st)) (_host (self st)) = inl err →
  recover env e st
  = (Raise err, with_call (CallResolve (_host (self st))) (with_log (log_record_of e) st)).
Proof.
  intros Hres. rewrite recover_eq.
  by rewrite (setup_connections_resolver_error env (with_log _ st) err Hres).
Qed.

End Outcomes.

(** X6: the first attempt that succeeds ends the call: after [j] failed
    attempts, a successful one within the budget makes [predict] and
    [async_predict] return the parsed response of the backend, in the state
    in which that attempt left the client; the errors of the earlier attempts
    do not reach the caller. *)
Theorem first_success_is_returned (env : Env) data output_names model_name
    model_signature_name (st st0 : State) (j : nat) :
  let request := _predict_request data model_name output_names model_signature_name in
  (j < Z.to_nat (n_trys (self st0)))%nat →
  _setup_connections env st = (Return tt, st0) →
  (∀ es st1 r st2,
     failed_attempts env (attempt env request) (retryable env) j st0 es st1 →
     attempt env request st1 = (Return r, st2) →
     predict env data output_names model_name model_signature_name st
     = (Return (parse_predict_response r), st2)) ∧
  (∀ es st1 r st2,
     failed_attempts env (async_attempt env request) async_retryable j st0 es st1 →
     async_attempt env request st1 = (Return r, st2) →
     async_predict env data output_names model_name model_signature_name st
     = (Return (parse_predict_response r), st2)).
Proof.
  intros request Hj Hset. split; intros es st1 r st2 Hrun Hatt.
  - by eapply predict_returns_after.
  - by eapply async_predict_returns_after.
Qed.

(** X7: when the resolver fails during the recovery from a failed attempt,
    the call raises the resolver's error and not [RetryFailed]: the error of
    the attempt has been logged, but it and the errors recorded before it are
    lost to the caller, and the rest of the budget is not used. *)
Theorem resolver_error_during_recovery (env : Env) data output_names model_name
    model_signature_name (st st0 : State) (j : nat) (err : Exn) :
  let request := _predict_request data model_name output_names model_signature_name in
  (j < Z.to_nat (n_trys (self st0)))%nat →
  _setup_connections env st = (Return tt, st0) →
  (∀ es st1 e st2,
     failed_attempts env (attempt env request) (retryable env) j st0 es st1 →
     attempt env request st1 = (Raise e, st2) →
     retryable env e = true →
     gethostbyname_ex env (tick (world st2)) (_host (self st2)) = inl err →
     predict env data output_names model_name model_signature_name st
     = (Raise err,
        with_call (CallResolve (_host (self st2))) (with_log (log_record_of e) st2))) ∧
  (∀ es st1 e st2,
     failed_attempts env (async_attempt env request) async_retryable j st0 es st1 →
     async_attempt env request st1 = (Raise e, st2) →
     async_retryable e = true →
     gethostbyname_ex env (tick (world st2)) (_host (self st2)) = inl err →
     async_predict env data output_names model_name model_signature_name st
     = (Raise err,
        with_call (CallResolve (_host (self st2))) (with_log (log_record_of e) st2))).
Proof.
  intros request Hj Hset. subst request.
  split; intros es st1 e st2 Hrun Hatt Hre Hres.
  - eapply predict_stops_after; [done..|]. intros k errors.
    rewrite (predict_loop_retry env _ k errors st1 e st2 Hatt Hre).
    unfold mbind, M_bind at 1. by rewrite (recover_resolver_error env e st2 err Hres).
  - eapply async_predict_stops_after; [done..|]. intros k errors.
    rewrite (async_predict_loop_retry env _ k errors st1 e st2 Hatt Hre).
    unfold mbind, M_bind at 1. by rewrite (recover_resolver_error env e st2 err Hres).
Qed.

(** X8: with a budget of zero or less there is no attempt at all: after the
    reconciliation at their start, [predict] and [async_predict] raise
    [RetryFailed] with no error in it, without a call to the backend. *)
Theorem no_budget_no_attempt (env : Env) data output_names model_name
    model_signature_name (st st0 : State) :
  rr_wf (_pool (self st)) →
  (n_trys (self st) ≤ 0)%Z →
  _setup_connections env st = (Return tt, st0) →
  predict env data output_names model_name model_signature_name st
  = (Raise (RetryFailed ("Failed after " +:+ pretty (n_trys (self st)) +:+ " tries") []),
     st0) ∧
  async_predict env data output_names model_name model_signature_name st
  = (Raise (RetryFailed ("Failed after " +:+ pretty (n_trys (self st)) +:+ " tries") []),
     st0) ∧
  calls (world st0) = (calls (world st) ++ [CallResolve (_host (self st))])%list.
Proof.
  intros Hwf Hn Hset.
  destruct (setup_connections_returned env st st0 Hwf Hset) as (_ & Hc & _ & Hcalls).
  assert (n_trys (self st0) = n_trys (self st)) as Hn0 by (symmetry; apply Hc).
  rewrite predict_eq, async_predict_eq, Hset, Hn0.
  replace (Z.to_nat (n_trys (self st))) with 0%nat by lia.
  rewrite predict_loop_exhausted, async_predict_loop_exhausted. by rewrite Hn0.
Qed.

Lemma first_success_is_returned_witness :
  ∃ st2 st2',
    predict (env_recovers 3) example_data (Some ["c"]) "test_model" (Some "test")
      state3
    = (Return {[ "c" := "5" ]}, st2) ∧
    async_predict (env_recovers 3) example_data (Some ["c"]) "test_model"
      (Some "test") state3
    = (Return {[ "c" := "5" ]}, st2').
Proof.
  destruct (first_success_is_returned (env_recovers 3) example_data (Some ["c"])
              "test_model" (Some "test") state3
              (_setup_connections (env_recovers 3) state3).2 1)
    as [Hsync Hasync]; [vm_compute; lia|reflexivity|].
  eexists _, _. split.
  - eapply (Hsync _ _ {| outputs := [("c", "5")] |}).
    + eapply failed_next; [by vm_compute|done|by vm_compute|apply failed_none].
    + by vm_compute.
  - eapply (Hasync _ _ {| outputs := [("c", "5")] |}).
    + eapply failed_next; [by vm_compute|done|by vm_compute|apply failed_none].
    + by vm_compute.
Defined.

Lemma resolver_error_during_recovery_witness :
  ∃ st3 st3',
    predict (env_dns_lost 3) example_data (Some ["c"]) "test_model" (Some "test")
      state3
    = (Raise (OSError "Name or service not known"), st3) ∧
    async_predict (env_dns_lost 3) example_data (Some ["c"]) "test_model"
      (Some "test") state3
    = (Raise (OSError "Name or service not known"), st3').
Proof.
  destruct (resolver_error_during_recovery (env_dns_lost 3) example_data
              (Some ["c"]) "test_model" (Some "test") state3
              (_setup_connections (env_dns_lost 3) state3).2 0
              (OSError "Name or service not known"))
    as [Hsync Hasync]; [vm_compute; lia|reflexivity|].
  eexists _, _. split.
  - eapply Hsync; [apply failed_none|by vm_compute|done|by vm_compute].
  - eapply Hasync; [apply failed_none|by vm_compute|done|by vm_compute].
Defined.

Lemma no_budget_no_attempt_witness :
  ∃ st0,
    predict env_down example_data (Some ["c"]) "test_model" (Some "test")
      (state3_with_budget 0)
    = (Raise (RetryFailed "Failed after 0 tries" []), st0) ∧
    async_predict env_down example_data (Some ["c"]) "test_model" (Some "test")
      (state3_with_budget 0)
    = (Raise (RetryFailed "Failed after 0 tries" []), st0) ∧
    calls (world st0) = [CallResolve "localhost"; CallResolve "localhost"].
Proof.
  eexists.
  apply (no_budget_no_attempt env_down example_data (Some ["c"]) "test_model"
           (Some "test") (state3_with_budget 0)).
  - exact state3_wf.
  - simpl. lia.
  - by vm_compute.
Defined.

(** ** How many outside calls a request can make *)

Section Budget.
Context (env : Env).

Lemma spends_weaken {A} b r b' r' (m : M A) :
  (b ≤ b')%nat → (r ≤ r')%nat → spends b r m → spends b' r' m.
Proof.
  intros Hb Hr Hm st res st' E. destruct (Hm _ _ _ E) as (? & ? & ?).
  split_and!; [done|lia|lia].
Qed.

Lemma spends_pure {A} (m : M A) :
  (∀ st, ∃ res, m st = (res, st)) → spends 0 0 m.
Proof.
  intros Hm st res st' E. destruct (Hm st) as [res' E']. rewrite E' in E.
  injection E as <- <-. split_and!; [done|lia|lia].
Qed.

Lemma spends_bind {A B} b1 r1 b2 r2 (m : M A) (f : A → M B) :
  spends b1 r1 m → (∀ a, spends b2 r2 (f a)) → spends (b1 + b2) (r1 + r2) (m ≫= f).
Proof.
  intros Hm Hf st res st'. unfold mbind, M_bind.
  destruct (m st) as [[a|e] st1] eqn:E.
  - intros E2. destruct (Hm _ _ _ E) as (Hc1 & Hb1 & Hr1).
    destruct (Hf a _ _ _ E2) as (Hc2 & Hb2 & Hr2).
    split_and!; [by etrans|lia|lia].
  - intros [= <- <-]. destruct (Hm _ _ _ E) as (Hc1 & Hb1 & Hr1).
    split_and!; [done|lia|lia].
Qed.

Lemma spends_try_except_else {A B} b1 r1 b2 r2 (m : M A) (h : Exn → M B)
    (k : A → M B) :
  spends b1 r1 m → (∀ e, spends b2 r2 (h e)) → (∀ a, spends b2 r2 (k a)) →
  spends (b1 + b2) (r1 + r2) (try_except_else m h k).
Proof.
  intros Hm Hh Hk st res st'. unfold try_except_else.
  destruct (m st) as [[a|e] st1] eqn:E; intros E2;
    destruct (Hm _ _ _ E) as (Hc1 & Hb1 & Hr1).
  - destruct (Hk a _ _ _ E2) as (Hc2 & Hb2 & Hr2). split_and!; [by etrans|lia|lia].
  - destruct (Hh e _ _ _ E2) as (Hc2 & Hb2 & Hr2). split_and!; [by etrans|lia|lia].
Qed.

Lemma spends_with_pool p : spends 0 0 (set_pool p).
Proof.
  intros st res st' [= <- <-]. split_and!; [done|unfold count_calls; simpl; lia..].
Qed.

Lemma spends_emit_log r : spends 0 0 (emit_log r).
Proof. intros st res st' [= <- <-]. split_and!; [done|unfold count_calls; simpl; lia..]. Qed.

Lemma spends_open_handle : spends 0 0 open_handle.
Proof. intros st res st' [= <- <-]. split_and!; [done|unfold count_calls; simpl; lia..]. Qed.

Lemma count_calls_with_call f c st :
  count_calls f (with_call c st)
  = (count_calls f st + if f c then 1 else 0)%nat.
Proof.
  unfold count_calls. simpl. rewrite List.filter_app, length_app. simpl.
  by destruct (f c).
Qed.

Lemma spends_record_call c :
  spends (if is_backend_call c then 1 else 0) (if is_resolver_call c then 1 else 0)
    (record_call c).
Proof.
  intros st res st'. rewrite record_call_eq. intros [= <- <-].
  rewrite !count_calls_with_call. by split_and!.
Qed.

Lemma spends_lift_answer {A} (x : Exn + A) : spends 0 0 (lift_answer x).
Proof. apply spends_pure. intros st. destruct x; by eexists. Qed.

Lemma spends_for_each {A} (l : list A) (f : A → M unit) :
  (∀ x, spends 0 0 (f x)) → spends 0 0 (for_each l f).
Proof.
  intros Hf. induction l as [|x l IH]; simpl.
  - apply spends_pure. intros st. by eexists.
  - apply (spends_bind 0 0 0 0); [apply Hf|done].
Qed.

Lemma spends_connect a : spends 0 0 (connect a).
Proof.
  unfold connect, Connection_init, pool_setitem.
  apply (spends_bind 0 0 0 0); [apply spends_pure; intros st; by eexists|]. intros c.
  apply (spends_bind 0 0 0 0).
  - apply (spends_bind 0 0 0 0); [apply spends_open_handle|]. intros hs.
    apply (spends_bind 0 0 0 0); [apply spends_open_handle|]. intros ha.
    apply spends_pure. intros st. by eexists.
  - intros conn.
    apply (spends_bind 0 0 0 0); [apply spends_pure; intros st; by eexists|]. intros p.
    apply (spends_bind 0 0 0 0); [apply spends_lift_answer|]. intros p'.
    apply spends_with_pool.
Qed.

Lemma spends_pool_delitem a : spends 0 0 (pool_delitem a).
Proof.
  unfold pool_delitem.
  apply (spends_bind 0 0 0 0); [apply spends_pure; intros st; by eexists|]. intros p.
  apply spends_with_pool.
Qed.

(** A reconciliation asks the resolver once and never calls the backend. *)
Lemma spends_setup_connections : spends 0 1 (_setup_connections env).
Proof.
  unfold _setup_connections, socket_gethostbyname_ex.
  apply (spends_bind 0 0 0 1); [apply spends_pure; intros st; by eexists|]. intros host.
  apply (spends_bind 0 1 0 0).
  - apply (spends_bind 0 0 0 1); [apply spends_pure; intros st; by eexists|]. intros t.
    apply (spends_bind 0 1 0 0); [apply (spends_record_call (CallResolve host))|].
    intros _. apply spends_lift_answer.
  - intros [[hn al] addrs].
    apply (spends_bind 0 0 0 0); [apply spends_pure; intros st; by eexists|]. intros p.
    destruct (decide _); [apply spends_pure; intros st; by eexists|].
    apply (spends_bind 0 0 0 0).
    + apply spends_for_each, spends_pool_delitem.
    + intros _. apply spends_for_each, spends_connect.
Qed.

Lemma spends_pool_next : spends 0 0 pool_next.
Proof.
  unfold pool_next.
  apply (spends_bind 0 0 0 0); [apply spends_pure; intros st; by eexists|]. intros p.
  destruct (rr_next p) as [[e p']|]; [|apply spends_pure; intros st; by eexists].
  apply (spends_bind 0 0 0 0); [apply spends_with_pool|]. intros _.
  apply spends_pure. intros st. by eexists.
Qed.

Lemma spends_get_round_robin_stub is_async : spends 0 0 (get_round_robin_stub is_async).
Proof.
  unfold get_round_robin_stub.
  apply (spends_bind 0 0 0 0); [apply spends_pool_next|].
  intros [[a conn]|]; [|apply spends_pure; intros st; by eexists].
  destruct is_async; apply spends_pure; intros st; by eexists.
Qed.

(** An attempt calls the backend at most once and never the resolver. *)
Lemma spends_attempt request : spends 1 0 (attempt env request).
Proof.
  unfold attempt, Predict.
  apply (spends_bind 0 0 1 0); [apply spends_get_round_robin_stub|]. intros stub.
  apply (spends_bind 0 0 1 0); [apply spends_pure; intros st; by eexists|]. intros t.
  apply (spends_bind 1 0 0 0); [apply (spends_record_call (CallPredict stub request))|].
  intros _. apply spends_lift_answer.
Qed.

Lemma spends_async_attempt request : spends 1 0 (async_attempt env request).
Proof.
  unfold async_attempt, await_Predict.
  apply (spends_bind 0 0 1 0); [apply spends_get_round_robin_stub|]. intros stub.
  apply (spends_bind 0 0 1 0); [apply spends_pure; intros st; by eexists|]. intros t.
  apply (spends_bind 1 0 0 0);
    [apply (spends_record_call (CallAsyncPredict stub request))|].
  intros _. apply spends_lift_answer.
Qed.

Lemma spends_raise_RetryFailed {A} errors : spends 0 0 (raise_RetryFailed (A:=A) errors).
Proof. apply spends_pure. intros st. by eexists. Qed.

Lemma spends_predict_loop request remaining errors :
  spends remaining remaining (predict_loop env request remaining errors).
Proof.
  revert errors. induction remaining as [|k IH]; intros errors;
    [apply spends_raise_RetryFailed|].
  simpl. apply (spends_try_except_else 1 0 k (S k));
    [apply spends_attempt| |intros r; apply spends_weaken with 0%nat 0%nat;
                             [lia|lia|apply spends_pure; intros st; by eexists]].
  assert (∀ (m : M unit) errors', spends 0 0 m →
            spends k (S k) (m;; _setup_connections env;;
                            predict_loop env request k errors')) as Hretry.
  { intros m errors' Hm. apply (spends_bind 0 0 k (S k)); [done|]. intros _.
    apply (spends_bind 0 1 k k); [apply spends_setup_connections|]. intros _. apply IH. }
  assert (∀ e, spends k (S k) (raise (A:=PredictResponse) e)) as Hraise.
  { intros e. apply spends_weaken with 0%nat 0%nat; [lia|lia|].
    apply spends_pure. intros st. by eexists. }
  intros e. destruct e; try (apply Hretry; apply spends_emit_log).
  - destruct (_ && _); [apply Hraise|apply Hretry, spends_emit_log].
  - simpl. destruct (cancelled_is_Exception env);
      [apply Hretry, spends_emit_log|apply Hraise].
Qed.

Lemma spends_async_predict_loop request remaining errors :
  spends remaining remaining (async_predict_loop env request remaining errors).
Proof.
  revert errors. induction remaining as [|k IH]; intros errors;
    [apply spends_raise_RetryFailed|].
  simpl. apply (spends_try_except_else 1 0 k (S k));
    [apply spends_async_attempt| |intros r; apply spends_weaken with 0%nat 0%nat;
                                   [lia|lia|apply spends_pure; intros st; by eexists]].
  assert (∀ (m : M unit) errors', spends 0 0 m →
            spends k (S k) (m;; _setup_connections env;;
                            async_predict_loop env request k errors')) as Hretry.
  { intros m errors' Hm. apply (spends_bind 0 0 k (S k)); [done|]. intros _.
    apply (spends_bind 0 1 k k); [apply spends_setup_connections|]. intros _. apply IH. }
  assert (∀ e, spends k (S k) (raise (A:=PredictResponse) e)) as Hraise.
  { intros e. apply spends_weaken with 0%nat 0%nat; [lia|lia|].
    apply spends_pure. intros st. by eexists. }
  intros e. destruct e; try (apply Hretry; apply spends_emit_log).
  - apply (spends_bind 0 0 k (S k)).
    + destruct (bool_decide _); [apply spends_lift_answer|].
      apply spends_pure. intros st. by eexists.
    + intros [|]; [apply Hraise|apply Hretry, spends_emit_log].
  - apply Hraise.
Qed.

End Budget.

(** X9: a call of [predict] or [async_predict] makes at most [n_trys] calls
    to the backend and at most one more to the resolver, whatever they
    answer and however the call ends. *)
Theorem calls_within_budget (env : Env) data output_names model_name
    model_signature_name (st : State) :
  let n := Z.to_nat (n_trys (self st)) in
  let after_predict :=
    (predict env data output_names model_name model_signature_name st).2 in
  let after_async_predict :=
    (async_predict env data output_names model_name model_signature_name st).2 in
  (count_calls is_backend_call after_predict
   ≤ count_calls is_backend_call st + n)%nat ∧
  (count_calls is_resolver_call after_predict
   ≤ count_calls is_resolver_call st + S n)%nat ∧
  (count_calls is_backend_call after_async_predict
   ≤ count_calls is_backend_call st + n)%nat ∧
  (count_calls is_resolver_call after_async_predict
   ≤ count_calls is_resolver_call st + S n)%nat.
Proof.
  intros n.
  rewrite predict_eq, async_predict_eq.
  destruct (_setup_connections env st) as [[[]|e] st0] eqn:E0;
    destruct (spends_setup_connections env _ _ _ E0) as (Hc0 & Hb0 & Hr0);
    [|simpl; lia].
  assert (Z.to_nat (n_trys (self st0)) = n) as -> by (subst n; f_equal; symmetry; apply Hc0).
  set (request := _predict_request _ _ _ _).
  destruct (predict_loop env request n [] st0) as [res st1] eqn:E1.
  destruct (async_predict_loop env request n [] st0) as [res' st1'] eqn:E1'.
  destruct (spends_predict_loop env _ _ _ _ _ _ E1) as (_ & Hb1 & Hr1).
  destruct (spends_async_predict_loop env _ _ _ _ _ _ E1') as (_ & Hb1' & Hr1').
  destruct res, res'; simpl; lia.
Qed.

(** ** The first attempt *)

(** X10: when the resolver returns at least one address, the blocking
    backend answers and the budget is positive, [predict] succeeds at its
    first attempt whatever the pool held before: it asks the resolver once,
    calls the blocking stub of one connection of the reconciled pool, to a
    resolved address, once, logs nothing and returns the parsed response. *)
Theorem predict_succeeds_at_first_attempt (env : Env) data output_names model_name
    model_signature_name (st : State) hn al (addrs : list Address) :
  let request := _predict_request data model_name output_names model_signature_name in
  rr_wf (_pool (self st)) →
  (0 < n_trys (self st))%Z →
  gethostbyname_ex env (tick (world st)) (_host (self st)) = inr (hn, al, addrs) →
  addrs ≠ [] →
  (∀ t stub, ∃ r, sync_Predict env t stub request = inr r) →
  ∃ st0 a conn r st',
    _setup_connections env st = (Return tt, st0) ∧
    (a, conn) ∈ rr_entries (_pool (self st0)) ∧ a ∈ addrs ∧
    sync_Predict env (tick (world st0)) (sync_stub conn) request = inr r ∧
    predict env data output_names model_name model_signature_name st
    = (Return (parse_predict_response r), st') ∧
    calls (world st')
    = (calls (world st)
       ++ [CallResolve (_host (self st)); CallPredict (sync_stub conn) request])%list ∧
    log (world st') = log (world st).
Proof.
  intros request Hwf Hn Hres Hne Hup.
  destruct (setup_connections_spec env st hn al addrs Hwf Hres)
    as (st0 & E0 & Hwf0 & Hk0 & Hc0 & Hcalls0 & Hlog0 & _).
  assert (n_trys (self st0) = n_trys (self st)) as Hn0 by (symmetry; apply Hc0).
  destruct (rr_next (_pool (self st0))) as [[[a conn] p']|] eqn:Hnext.
  2: { apply rr_next_None in Hnext. destruct addrs as [|b addrs]; [done|].
       assert (b ∈ rr_keys (_pool (self st0))) as Hb by (apply Hk0; by left).
       unfold rr_keys in Hb. rewrite Hnext in Hb. by apply elem_of_nil in Hb. }
  pose proof (rr_next_Some _ _ _ Hnext) as [Hlook _].
  apply list_elem_of_lookup_2 in Hlook.
  destruct (Hup (tick (world st0)) (sync_stub conn)) as [r Hr].
  assert (attempt env request st0
          = (Return r, with_call (CallPredict (sync_stub conn) request)
                         (with_pool p' st0))) as Hatt.
  { rewrite attempt_eq, Hnext. simpl. by rewrite Hr. }
  exists st0, a, conn, r, (with_call (CallPredict (sync_stub conn) request)
                            (with_pool p' st0)).
  split_and!; [done|done| |done| | |done].
  - apply Hk0. apply list_elem_of_fmap. by exists (a, conn).
  - rewrite predict_eq, E0. fold request.
    replace (Z.to_nat (n_trys (self st0)))
      with (S (Z.to_nat (n_trys (self st0)) - 1)) by lia.
    by rewrite (predict_loop_success env request _ [] st0 r _ Hatt).
  - simpl. rewrite Hcalls0. by rewrite <-app_assoc.
Qed.

Lemma predict_succeeds_at_first_attempt_witness :
  ∃ st0 a conn r st',
    _setup_connections env_up state_empty = (Return tt, st0) ∧
    (a, conn) ∈ rr_entries (_pool (self st0)) ∧ a ∈ ["1.2.3.4"] ∧
    sync_Predict env_up (tick (world st0)) (sync_stub conn) example_request = inr r ∧
    predict env_up example_data (Some ["c"]) "test_model" (Some "test") state_empty
    = (Return (parse_predict_response r), st') ∧
    calls (world st')
    = (calls (world state_empty)
       ++ [CallResolve "localhost"; CallPredict (sync_stub conn) example_request])%list ∧
    log (world st') = log (world state_empty).
Proof.
  apply (predict_succeeds_at_first_attempt env_up example_data (Some ["c"])
           "test_model" (Some "test") state_empty "localhost" [] ["1.2.3.4"]).
  - exact rr_empty_wf.
  - simpl. lia.
  - reflexivity.
  - discriminate.
  - intros t stub. by eexists.
Defined.

(** ** Selection *)

(** X11: the flag of [get_round_robin_stub] only chooses which of the two
    stubs of the selected connection is returned: on a pool with entries,
    both flavours select the same connection of the pool and leave the
    client in the same state, with the same entries; on an empty pool both
    raise [EmptyPool] and leave the client as it was. *)
Theorem stub_flavours_share_the_rotation (st : State) :
  (rr_entries (_pool (self st)) ≠ [] →
   ∃ a conn st',
     (a, conn) ∈ rr_entries (_pool (self st)) ∧
     get_round_robin_stub false st = (Return (sync_stub conn), st') ∧
     get_round_robin_stub true st = (Return (async_stub conn), st') ∧
     rr_entries (_pool (self st')) = rr_entries (_pool (self st)) ∧
     world st' = world st) ∧
  (rr_entries (_pool (self st)) = [] →
   ∀ is_async,
     get_round_robin_stub is_async st = (Raise (EmptyPool "no connections"), st)).
Proof.
  split.
  - intros Hne.
    destruct (rr_next (_pool (self st))) as [[[a conn] p']|] eqn:Hnext;
      [|by apply rr_next_None in Hnext].
    pose proof (rr_next_Some _ _ _ Hnext) as [Hlook Hp'].
    exists a, conn, (with_pool p' st).
    rewrite !get_round_robin_stub_eq, Hnext. split_and!; try done.
    + by eapply list_elem_of_lookup_2.
    + by rewrite Hp'.
  - intros Hemp is_async. rewrite get_round_robin_stub_eq.
    by rewrite (proj2 (rr_next_None _) Hemp).
Qed.

Lemma stub_flavours_share_the_rotation_witness :
  (∃ a conn st',
     (a, conn) ∈ rr_entries (_pool (self state3)) ∧
     get_round_robin_stub false state3 = (Return (sync_stub conn), st') ∧
     get_round_robin_stub true state3 = (Return (async_stub conn), st') ∧
     rr_entries (_pool (self st')) = rr_entries (_pool (self state3)) ∧
     world st' = world state3) ∧
  (∀ is_async,
     get_round_robin_stub is_async state_empty
     = (Raise (EmptyPool "no connections"), state_empty)).
Proof.
  split.
  - apply (stub_flavours_share_the_rotation state3). discriminate.
  - apply (stub_flavours_share_the_rotation state_empty). reflexivity.
Defined.

(** ** [list_models] on a pool with entries *)

(** X12: on a pool with entries [list_models] takes the next connection of
    the rotation, as a selection for [predict] would, and makes one call on
    its blocking channel.  It returns the models of the answer, or raises the
    error of the call as it is: nothing is retried, logged or reconciled. *)
Theorem list_models_makes_one_call (env : Env) (st : State) :
  rr_entries (_pool (self st)) ≠ [] →
  ∃ a conn st',
    (a, conn) ∈ rr_entries (_pool (self st)) ∧
    get_round_robin_stub false st = (Return (sync_stub conn), st') ∧
    list_models env st
    = (match ListModels env (tick (world st)) (sync_channel conn) with
       | inl e => Raise e
       | inr models => Return models
       end,
       with_call (CallListModels (sync_channel conn)) st').
Proof.
  intros Hne.
  destruct (rr_next (_pool (self st))) as [[[a conn] p']|] eqn:Hnext;
    [|by apply rr_next_None in Hnext].
  pose proof (rr_next_Some _ _ _ Hnext) as [Hlook _].
  exists a, conn, (with_pool p' st).
  rewrite get_round_robin_stub_eq, Hnext. split_and!; [|done|].
  - by eapply list_elem_of_lookup_2.
  - unfold list_models, mbind, M_bind. rewrite pool_next_eq, Hnext.
    munfold. simpl. by destruct (ListModels env _ _).
Qed.

Lemma list_models_makes_one_call_witness :
  ∃ a conn st',
    (a, conn) ∈ rr_entries (_pool (self state3)) ∧
    get_round_robin_stub false state3 = (Return (sync_stub conn), st') ∧
    list_models env_up state3
    = (match ListModels env_up (tick (world state3)) (sync_channel conn) with
       | inl e => Raise e
       | inr models => Return models
       end,
       with_call (CallListModels (sync_channel conn)) st').
Proof.
  apply (list_models_makes_one_call env_up state3). discriminate.
Defined.

(** ** A NOT_FOUND error without a message *)

(** X13: on the awaitable surface a NOT_FOUND error that carries no message
    is neither retried on nor raised itself: the test for the substring
    fails on the missing message, and [async_predict] raises the resulting
    [TypeError], in the state in which the attempt left the client. *)
Theorem not_found_without_message_raises_TypeError (env : Env) data output_names
    model_name model_signature_name (st st0 st1 st2 : State) (j : nat)
    (es : list Exn) :
  let request := _predict_request data model_name output_names model_signature_name in
  (j < Z.to_nat (n_trys (self st0)))%nat →
  _setup_connections env st = (Return tt, st0) →
  failed_attempts env (async_attempt env request) async_retryable j st0 es st1 →
  async_attempt env request st1 = (Raise (GRPCError NOT_FOUND None), st2) →
  async_predict env data output_names model_name model_signature_name st
  = (Raise (TypeError "argument of type 'NoneType' is not iterable"), st2).
Proof.
  intros request Hj Hset Hrun Hatt. subst request.
  eapply async_predict_stops_after; [done..|]. intros k errors.
  simpl. unfold try_except_else. by rewrite Hatt.
Qed.

(** ** The log *)

Section Log.
Context (env : Env).

Lemma attempt_quiet request : quiet (attempt env request).
Proof.
  intros st r st1. rewrite attempt_eq.
  destruct (rr_next (_pool (self st))) as [[e p']|] eqn:E; [|by intros [= _ <-]].
  simpl. destruct (sync_Predict env _ _ request); intros [= _ <-];
    (split_and!; [done|by rewrite count_calls_with_call, Nat.add_0_r|]);
    intros Hwf; by eapply rr_next_wf.
Qed.

Lemma async_attempt_quiet request : quiet (async_attempt env request).
Proof.
  intros st r st1. rewrite async_attempt_eq.
  destruct (rr_next (_pool (self st))) as [[e p']|] eqn:E; [|by intros [= _ <-]].
  simpl. destruct (async_Predict env _ _ request); intros [= _ <-];
    (split_and!; [done|by rewrite count_calls_with_call, Nat.add_0_r|]);
    intros Hwf; by eapply rr_next_wf.
Qed.







End Log.


Lemma not_found_without_message_raises_TypeError_witness :
  ∃ st2,
    async_predict (env_not_found_bare 3) example_data (Some ["c"]) "test_model"
      (Some "test") state3
    = (Raise (TypeError "argument of type 'NoneType' is not iterable"), st2).
Proof.
  eexists.
  eapply (not_found_without_message_raises_TypeError (env_not_found_bare 3)
            example_data (Some ["c"]) "test_model" (Some "test") state3
            (_setup_connections (env_not_found_bare 3) state3).2 _ _ 1
            [GRPCError UNAVAILABLE None]).
  - vm_compute. lia.
  - reflexivity.
  - eapply failed_next; [by vm_compute|done|by vm_compute|apply failed_none].
  - by vm_compute.
Defined.


(** ** NOT_FOUND with another text *)

(** X18: an attempt that fails with NOT_FOUND and a text without the
    substring [Model] does not end the call, on either surface.  When the
    resolver answers, the loop goes on with one iteration less and the error
    appended to the recorded ones, from a state in which the error has been
    logged as an exception, the resolver has been asked once more and the
    pool holds exactly the addresses it returned. *)
Theorem not_found_with_other_text_is_retried (env : Env) (request : PredictRequest)
    (k : nat) (errors : list Exn) (st st1 : State) (text : string) hn al addrs :
  str_contains "Model" text = false →
  rr_wf (_pool (self st)) →
  gethostbyname_ex env (tick (world st1)) (_host (self st1)) = inr (hn, al, addrs) →
  (let e := RpcError NOT_FOUND text in
   attempt env request st = (Raise e, st1) →
   ∃ st2,
     predict_loop env request (S k) errors st
     = predict_loop env request k (errors ++ [e])%list st2 ∧
     log (world st2) = (log (world st) ++ [LogException e])%list ∧
     calls (world st2) = (calls (world st1) ++ [CallResolve (_host (self st1))])%list ∧
     ∀ a, a ∈ rr_keys (_pool (self st2)) ↔ a ∈ addrs) ∧
  (let e := GRPCError NOT_FOUND (Some text) in
   async_attempt env request st = (Raise e, st1) →
   ∃ st2,
     async_predict_loop env request (S k) errors st
     = async_predict_loop env request k (errors ++ [e])%list st2 ∧
     log (world st2) = (log (world st) ++ [LogException e])%list ∧
     calls (world st2) = (calls (world st1) ++ [CallResolve (_host (self st1))])%list ∧
     ∀ a, a ∈ rr_keys (_pool (self st2)) ↔ a ∈ addrs).
Proof.
  intros Htext Hwf Hr. split; intros e Hatt.
  - destruct (attempt_quiet env request _ _ _ Hatt) as (Hlog1 & _ & Hwf1).
    destruct (setup_connections_spec env (with_log (LogException e) st1) hn al addrs
                (Hwf1 Hwf) Hr)
      as (st2 & E & _ & Hkeys & _ & Hcalls & Hlog & _).
    exists st2. split_and!; [|by rewrite Hlog; simpl; rewrite Hlog1|done..].
    rewrite (predict_loop_retry env request k errors st e st1 Hatt)
      by (subst e; simpl; by rewrite Htext).
    unfold mbind, M_bind at 1. rewrite recover_eq. subst e. simpl. by rewrite E.
  - destruct (async_attempt_quiet env request _ _ _ Hatt) as (Hlog1 & _ & Hwf1).
    destruct (setup_connections_spec env (with_log (LogException e) st1) hn al addrs
                (Hwf1 Hwf) Hr)
      as (st2 & E & _ & Hkeys & _ & Hcalls & Hlog & _).
    exists st2. split_and!; [|by rewrite Hlog; simpl; rewrite Hlog1|done..].
    rewrite (async_predict_loop_retry env request k errors st e st1 Hatt)
      by (subst e; simpl; by rewrite Htext).
    unfold mbind, M_bind at 1. rewrite recover_eq. subst e. simpl. by rewrite E.
Qed.

Lemma not_found_with_other_text_is_retried_witness :
  let e := RpcError NOT_FOUND "Servable not found for request" in
  let e' := GRPCError NOT_FOUND (Some "Servable not found for request") in
  (∃ st2,
     predict_loop (env_no_servable 0) example_request 3 [] state3
     = predict_loop (env_no_servable 0) example_request 2 [e] st2 ∧
     log (world st2) = [LogException e] ∧
     calls (world st2)
     = [CallResolve "localhost";
        CallPredict (sync_stub (example_conn "5.6.7.8" 2)) example_request;
        CallResolve "localhost"] ∧
     ∀ a, a ∈ rr_keys (_pool (self st2)) ↔ a ∈ three_addresses) ∧
  (∃ st2,
     async_predict_loop (env_no_servable 0) example_request 3 [] state3
     = async_predict_loop (env_no_servable 0) example_request 2 [e'] st2 ∧
     log (world st2) = [LogException e'] ∧
     calls (world st2)
     = [CallResolve "localhost";
        CallAsyncPredict (async_stub (example_conn "5.6.7.8" 2)) example_request;
        CallResolve "localhost"] ∧
     ∀ a, a ∈ rr_keys (_pool (self st2)) ↔ a ∈ three_addresses).
Proof.
  intros e e'. split.
  - apply (proj1 (not_found_with_other_text_is_retried (env_no_servable 0)
                    example_request 2 [] state3
                    (attempt (env_no_servable 0) example_request state3).2
                    "Servable not found for request" "localhost" [] three_addresses
                    eq_refl state3_wf eq_refl)).
    reflexivity.
  - apply (proj2 (not_found_with_other_text_is_retried (env_no_servable 0)
                    example_request 2 [] state3
                    (async_attempt (env_no_servable 0) example_request state3).2
                    "Servable not found for request" "localhost" [] three_addresses
                    eq_refl state3_wf eq_refl)).
    reflexivity.
Defined.

(** ** Requests and responses *)

Section Payload.

Lemma foldl_insert_lookup (l : list (string * Value)) (m0 : gmap string Value) k :
  foldl (λ m d, <[d.1 := d.2]> m) m0 l !! k
  = match last (filter (λ d, d.1 = k) l) with
    | Some d => Some d.2
    | None => m0 !! k
    end.
Proof.
  induction l as [|d l IH] using rev_ind; [done|].
  rewrite foldl_app, filter_app. simpl. rewrite filter_cons, filter_nil.
  destruct (decide (d.1 = k)) as [<-|Hne].
  - by rewrite last_snoc, lookup_insert_eq.
  - by rewrite app_nil_r, lookup_insert_ne.
Qed.

Lemma foldl_insert_list_to_map (l : list (string * Value)) :
  foldl (λ m d, <[d.1 := d.2]> m) (∅ : gmap string Value) l = list_to_map (reverse l).
Proof.
  induction l as [|d l IH] using rev_ind; [done|].
  rewrite foldl_app, reverse_snoc. simpl. rewrite IH. by destruct d.
Qed.

Lemma foldl_insert_Permutation (l1 l2 : list (string * Value)) :
  NoDup l1.*1 → l1 ≡ₚ l2 →
  foldl (λ m d, <[d.1 := d.2]> m) (∅ : gmap string Value) l1
  = foldl (λ m d, <[d.1 := d.2]> m) ∅ l2.
Proof.
  intros Hnd Hperm. rewrite !foldl_insert_list_to_map.
  apply list_to_map_proper.
  - by rewrite fmap_reverse, reverse_Permutation.
  - by rewrite !reverse_Permutation.
Qed.

Lemma predict_request_inputs_eq data model_name output_names model_signature_name :
  inputs (_predict_request data model_name output_names model_signature_name)
  = foldl (λ m d, <[d.1 := d.2]> m) ∅ (data_items data).
Proof. by destruct data. Qed.

End Payload.

(** X15: in the request that [_predict_request] builds, an input name carries
    the value of the last item of [data] with that name, and a name that no
    item has is absent; the model name and the signature name are the ones
    given, and the output filter is the list of output names, empty when
    none is given. *)
Theorem predict_request_inputs (data : Data) model_name output_names
    model_signature_name (name : string) :
  let req := _predict_request data model_name output_names model_signature_name in
  inputs req !! name
  = snd <$> last (filter (λ d, d.1 = name) (data_items data)) ∧
  model_spec_name req = model_name ∧
  model_spec_signature_name req = model_signature_name ∧
  output_filter req = default [] output_names.
Proof.
  intros req. subst req. split; [|done].
  rewrite predict_request_inputs_eq, foldl_insert_lookup.
  by destruct (last _).
Qed.

(** X16: when the names of the items are distinct, the request does not
    depend on the order of the items nor on the style of [data]: two inputs
    with the same (name, value) pairs, as a list of [PredictInput] or as a
    mapping, give the same request. *)
Theorem predict_request_order_irrelevant (data data' : Data) model_name output_names
    model_signature_name :
  NoDup (data_items data).*1 →
  data_items data ≡ₚ data_items data' →
  _predict_request data model_name output_names model_signature_name
  = _predict_request data' model_name output_names model_signature_name.
Proof.
  intros Hnd Hperm.
  pose proof (predict_request_inputs_eq data model_name output_names
                model_signature_name) as H1.
  pose proof (predict_request_inputs_eq data' model_name output_names
                model_signature_name) as H2.
  rewrite (foldl_insert_Permutation _ _ Hnd Hperm), <-H2 in H1.
  unfold _predict_request in *. simpl in *. by rewrite H1.
Qed.

Lemma predict_request_order_irrelevant_witness :
  _predict_request example_data "test_model" (Some ["c"]) (Some "test")
  = _predict_request (NewData [("b", "3"); ("a", "2")]) "test_model" (Some ["c"])
      (Some "test").
Proof.
  apply (predict_request_order_irrelevant example_data
           (NewData [("b", "3"); ("a", "2")])).
  - apply (bool_decide_unpack _). by vm_compute.
  - apply perm_swap.
Defined.

(** X17: [parse_predict_response] returns the outputs of the response as a
    mapping: for a response whose output names are distinct, a name maps to
    a value exactly when the response has that output, and the response made
    of the entries of a mapping is parsed back into that mapping. *)
Theorem parse_predict_response_round_trip :
  (∀ response, NoDup (outputs response).*1 →
     ∀ name value,
       parse_predict_response response !! name = Some value
       ↔ (name, value) ∈ outputs response) ∧
  (∀ m : gmap string Value,
     parse_predict_response {| outputs := map_to_list m |} = m).
Proof.
  split.
  - intros response Hnd name value. unfold parse_predict_response.
    rewrite foldl_insert_list_to_map, <-elem_of_list_to_map.
    + apply elem_of_reverse.
    + by rewrite fmap_reverse, reverse_Permutation.
  - intros m. unfold parse_predict_response. simpl.
    rewrite foldl_insert_list_to_map.
    rewrite (list_to_map_proper (reverse (map_to_list m)) (map_to_list m)).
    + apply list_to_map_to_list.
    + rewrite fmap_reverse, reverse_Permutation. apply NoDup_fst_map_to_list.
    + apply reverse_Permutation.
Qed.

Lemma parse_predict_response_round_trip_witness :
  (∀ name value,
     parse_predict_response {| outputs := [("c", "5"); ("d", "7")] |} !! name
     = Some value
     ↔ (name, value) ∈ [("c", "5"); ("d", "7")]) ∧
  parse_predict_response
    {| outputs := map_to_list ({[ "c" := "5" ]} : gmap string Value) |}
  = {[ "c" := "5" ]}.
Proof.
  destruct parse_predict_response_round_trip as [Hlookup Hround].
  split.
  - apply (Hlookup {| outputs := [("c", "5"); ("d", "7")] |}).
    apply (bool_decide_unpack _). by vm_compute.
  - apply Hround.
Defined.
